(** * terrarium: the genetic-algorithm engine of [terrarium.ts]

    A shallow embedding of [src/src/terrarium.ts]: the [Organism] and
    [GeneticAlgorithmModel] data types, the default reproduction strategy
    [produceNextGeneration] and the controller [GeneticAlgorithm] with its
    [step] / [next] / [play] / [pause] methods.

    JavaScript objects are mutable and passed by reference, so organisms and
    models live in a store and are named by their address; [structuredClone]
    allocates fresh objects.  The collaborator callbacks are parameters of
    the development.  Numbers are modelled by [Z] (the numbers that hold an
    integer): [populationSize], [generation] and the fitness values.  A
    number is an IEEE 754 double, so an integer result is exact only up to
    [2^53]; the increment [generation++] rounds as the double addition
    does. *)

From Stdlib Require Import ZArith QArith.QArith_base.
From stdpp Require Import list sorting strings.

Local Open Scope Z_scope.
Local Open Scope nat_scope.

(** Address of an object in the store. *)
Abbreviation loc := nat.

(** ** [Array.prototype.sort]

    ECMAScript's sort is stable, and for a consistent comparator its result
    is the unique stable ordering; it is embedded as a stable insertion
    sort.  [cmp a b > 0] means that [a] goes after [b]. *)
Section ArraySort.
Context {A : Type}.
Variable cmp : A -> A -> Z.

Fixpoint sort_insert (x : A) (l : list A) : list A :=
  match l with
  | [] => [x]
  | y :: l' => if (0 <? cmp x y)%Z then y :: sort_insert x l' else x :: y :: l'
  end.

Definition array_sort (l : list A) : list A := foldr sort_insert [] l.
End ArraySort.

(** A list in descending order of [f]. *)
Definition descending {A : Type} (f : A -> Z) (l : list A) : Prop :=
  StronglySorted (fun a b => (f b <= f a)%Z) l.

(** ** Numbers

    A number is a double: 53 bits of significand.  [round_to_double z] is
    the double nearest to the integer [z], ties to the even significand
    (the rounding of every arithmetic operation); integers of magnitude
    below [2^53] are doubles themselves.  [e] is the number of low bits
    that do not fit. *)
Definition two53 : Z := 9007199254740992.

Definition round_to_double (z : Z) : Z :=
  let a := Z.abs z in
  if (a <? two53)%Z then z
  else
    let e := (Z.log2 a - 52)%Z in
    let m := Z.shiftr a e in
    let r := Z.land a (Z.ones e) in
    let half := Z.shiftl 1 (e - 1) in
    let m' := if (r <? half)%Z then m
              else if (half <? r)%Z then (m + 1)%Z
              else if Z.even m then m else (m + 1)%Z in
    (Z.sgn z * Z.shiftl m' e)%Z.

(** [x++] on a number that holds the integer [x]: the new value is the
    double sum [x + 1]. *)
Definition increment (x : Z) : Z := round_to_double (x + 1).

(** ** The data model *)

(** [interface GeneticAlgorithmModel]; [population] holds references. *)
Record GeneticAlgorithmModel := mkModel {
  populationSize : Z;
  generation : Z;
  population : list loc;
}.

Definition set_generation (g : Z) (m : GeneticAlgorithmModel) :=
  mkModel (populationSize m) g (population m).
Definition set_population (p : list loc) (m : GeneticAlgorithmModel) :=
  mkModel (populationSize m) (generation m) p.

(** Calls of the effectful collaborator callbacks, in program order. *)
Inductive Event :=
| EvCreateOrganism (result : loc)
| EvCrossover (parentA parentB : option loc) (child : loc)
| EvMutate (organism result : loc)
| EvProduceNextGeneration (model : loc)
| EvStepFunction (model : loc).

(** The deferred-call primitives of the host: [requestAnimationFrame(cb)]
    runs [cb] before the next repaint, [setTimeout(cb, delay)] after [delay]
    milliseconds.  Every callback the engine registers is
    [() => { this.step(); }]. *)
Inductive HostRequest :=
| AnimationFrame
| Timeout (delay : Z).

(** What one invocation of [step()] does, statement by statement: the calls
    of the model-level callbacks, the write of [isRunning], and the call of
    [next()], whose body is the request to the host. *)
Inductive Effect :=
| CallShouldTerminate
| WriteIsRunning (b : bool)
| CallShouldProgressGeneration
| CallProduceNextGeneration
| CallStepFunction
| RequestAnimationFrame.

Section Store.
(** The genetic payload is opaque to the engine ([genes: unknown]). *)
Variable Genes : Type.
(** The collaborator's own ambient state (random generator, counters, the
    page): whatever its callbacks read and write besides the organisms. *)
Variable W : Type.

(** [interface Organism] *)
Record Organism := mkOrganism {
  genes : Genes;
  mutationChance : Q;
}.

(** The store: organism objects and model objects by address (an object is
    allocated at the end of its list and never freed), the collaborator's
    ambient state, and the log of callback calls. *)
Record State := mkState {
  organisms : list Organism;
  models : list GeneticAlgorithmModel;
  env : W;
  trace : list Event;
}.

(** A state and error monad: [None] is a stuck store access (a dangling
    address), which no JavaScript program can perform. *)
Definition M (A : Type) : Type := State -> option (A * State).

(** The mutable fields of the controller, with the store they point into
    and the host's queue of registered callbacks (oldest first). *)
Record GeneticAlgorithm := mkGA {
  state : State;
  model : loc;
  isRunning : bool;
  pending : list HostRequest;
}.

(** The callbacks a [GeneticAlgorithm] is built with.  The organism-level
    ones see the organisms and the collaborator's state and hold no
    reference to a model object; the model-level ones receive the model
    and see the whole store.  An argument read from an array out of its
    range is [undefined], hence the [option] parents of [crossover].
    [produceNextGeneration] is [None] when the caller leaves the default. *)
Record Callbacks := mkCallbacks {
  createOrganism : list Organism -> W -> loc * list Organism * W;
  stepFunction :
    loc -> list Organism -> list GeneticAlgorithmModel -> W ->
    list Organism * list GeneticAlgorithmModel * W;
  calculateFitness : list Organism -> W -> loc -> Z;
  crossover :
    option loc -> option loc -> list Organism -> W -> loc * list Organism * W;
  mutate : loc -> list Organism -> W -> loc * list Organism * W;
  shouldTerminate :
    loc -> list Organism -> list GeneticAlgorithmModel -> W -> bool;
  shouldProgressGeneration :
    loc -> list Organism -> list GeneticAlgorithmModel -> W -> bool;
  produceNextGeneration : option (loc -> M loc);
}.
End Store.

Arguments mkOrganism {Genes} _ _.
Arguments genes {Genes} _.
Arguments mutationChance {Genes} _.
Arguments mkState {Genes W} _ _ _ _.
Arguments organisms {Genes W} _.
Arguments models {Genes W} _.
Arguments env {Genes W} _.
Arguments trace {Genes W} _.
Arguments mkGA {Genes W} _ _ _ _.
Arguments state {Genes W} _.
Arguments model {Genes W} _.
Arguments isRunning {Genes W} _.
Arguments pending {Genes W} _.
Arguments mkCallbacks {Genes W} _ _ _ _ _ _ _ _.
Arguments createOrganism {Genes W} _ _ _.
Arguments stepFunction {Genes W} _ _ _ _ _.
Arguments calculateFitness {Genes W} _ _ _ _.
Arguments crossover {Genes W} _ _ _ _ _.
Arguments mutate {Genes W} _ _ _ _.
Arguments shouldTerminate {Genes W} _ _ _ _ _.
Arguments shouldProgressGeneration {Genes W} _ _ _ _ _.
Arguments produceNextGeneration {Genes W} _.

Section Monad.
Context {Genes W : Type}.

Definition ret {A} (a : A) : M Genes W A := fun s => Some (a, s).
Definition bind {A B} (m : M Genes W A) (k : A -> M Genes W B) : M Genes W B :=
  fun s => match m s with
           | Some (a, s') => k a s'
           | None => None
           end.
End Monad.

Notation "'let*' x ':=' m 'in' k" := (bind m (fun x => k))
  (at level 10, x name, m at level 100, k at level 200).

Section Terrarium.
Context {Genes W : Type}.
Variable C : Callbacks Genes W.

Local Abbreviation M := (M Genes W).
Local Abbreviation Organism := (Organism Genes).
Local Abbreviation State := (State Genes W).
Local Abbreviation GeneticAlgorithm := (GeneticAlgorithm Genes W).

Definition get_model (m : loc) : M GeneticAlgorithmModel :=
  fun s => match models s !! m with
           | Some x => Some (x, s)
           | None => None
           end.

Definition update_model (m : loc)
    (f : GeneticAlgorithmModel -> GeneticAlgorithmModel) : M unit :=
  fun s => match models s !! m with
           | Some x =>
               Some (tt, mkState (organisms s) (<[m := f x]> (models s))
                                 (env s) (trace s))
           | None => None
           end.

(** An object literal [{ populationSize: .., generation: .., population: .. }]. *)
Definition new_model (x : GeneticAlgorithmModel) : M loc :=
  fun s => Some (length (models s),
                 mkState (organisms s) (models s ++ [x]) (env s) (trace s)).

Definition call_createOrganism : M loc :=
  fun s => let '(r, h, w) := createOrganism C (organisms s) (env s) in
           Some (r, mkState h (models s) w (trace s ++ [EvCreateOrganism r])).

Definition call_crossover (parentA parentB : option loc) : M loc :=
  fun s => let '(r, h, w) := crossover C parentA parentB (organisms s) (env s) in
           Some (r, mkState h (models s) w
                            (trace s ++ [EvCrossover parentA parentB r])).

Definition call_mutate (organism : loc) : M loc :=
  fun s => let '(r, h, w) := mutate C organism (organisms s) (env s) in
           Some (r, mkState h (models s) w (trace s ++ [EvMutate organism r])).

(** ** [structuredClone]

    A deep copy that keeps the sharing inside the copied value: an object
    met twice is copied once ([memo] maps an original to its copy).  The
    copies [acc] are allocated after the objects of [src]. *)
Fixpoint memo_find (r : loc) (memo : list (loc * loc)) : option loc :=
  match memo with
  | [] => None
  | (k, v) :: memo' => if Nat.eqb k r then Some v else memo_find r memo'
  end.

Fixpoint clone_refs (src : list Organism) (refs : list loc)
    (memo : list (loc * loc)) (acc : list Organism)
    : option (list loc * list Organism) :=
  match refs with
  | [] => Some ([], acc)
  | r :: refs' =>
      match memo_find r memo with
      | Some r' =>
          match clone_refs src refs' memo acc with
          | Some (out, acc') => Some (r' :: out, acc')
          | None => None
          end
      | None =>
          match src !! r with
          | Some o =>
              let r' := length src + length acc in
              match clone_refs src refs' ((r, r') :: memo) (acc ++ [o]) with
              | Some (out, acc') => Some (r' :: out, acc')
              | None => None
              end
          | None => None
          end
      end
  end.

(** Every copy recorded in [memo] lies among the [k] objects after [n]. *)
Definition memo_ok (n k : nat) (memo : list (loc * loc)) : Prop :=
  Forall (fun kv => n <= kv.2 < n + k) memo.


(** Every reference of [refs] names an object of [h]. *)
Definition refs_valid (h : list Organism) (refs : list loc) : bool :=
  forallb (fun r => r <? length h) refs.

Definition structuredClone (model : loc) : M loc :=
  let* m := get_model model in
  fun s => match clone_refs (organisms s) (population m) [] [] with
           | Some (refs, acc) =>
               new_model (mkModel (populationSize m) (generation m) refs)
                 (mkState (organisms s ++ acc) (models s) (env s) (trace s))
           | None => None
           end.

(** ** The default reproduction strategy *)

(** [newModel.population.sort((a, b) => calculateFitness(b) - calculateFitness(a))]:
    sorts the array in place and returns it. *)
Definition fitness_cmp (h : list Organism) (w : W) (a b : loc) : Z :=
  (calculateFitness C h w b - calculateFitness C h w a)%Z.

Definition sort_population (m : loc) : M (list loc) :=
  let* x := get_model m in
  fun s =>
    let sorted := array_sort (fitness_cmp (organisms s) (env s)) (population x) in
    bind (update_model m (set_population sorted)) (fun _ => ret sorted) s.

(** [for (i = 0; i < newModel.populationSize; i++)
       newModel.population.push(this.crossover(parentA, parentB))];
    [n] counts the iterations that remain. *)
Fixpoint crossover_loop (newModel : loc) (parentA parentB : option loc)
    (n : nat) : M unit :=
  match n with
  | O => ret tt
  | S n' =>
      let* child := call_crossover parentA parentB in
      let* _ := update_model newModel
                  (fun m => set_population (population m ++ [child]) m) in
      crossover_loop newModel parentA parentB n'
  end.

(** [newModel.population[i]]: every index the mutation loop reads was
    pushed by the crossover loop; the embedding is stuck elsewhere. *)
Definition get_population_at (m : loc) (i : nat) : M loc :=
  let* x := get_model m in
  fun s => match population x !! i with
           | Some o => Some (o, s)
           | None => None
           end.

(** [for (i = 0; i < newModel.populationSize; i++)
       newModel.population[i] = this.mutate(newModel.population[i])] *)
Fixpoint mutate_loop (newModel : loc) (i : nat) (n : nat) : M unit :=
  match n with
  | O => ret tt
  | S n' =>
      let* o := get_population_at newModel i in
      let* o' := call_mutate o in
      let* _ := update_model newModel
                  (fun m => set_population (<[i := o']> (population m)) m) in
      mutate_loop newModel (S i) n'
  end.

(** What the two loops compute on the organisms and the collaborator's
    state: the values returned by the calls, in call order. *)
Fixpoint crossover_run (parentA parentB : option loc) (n : nat)
    (h : list Organism) (w : W) : list loc * list Organism * W :=
  match n with
  | O => ([], h, w)
  | S n' =>
      let '(child, h1, w1) := crossover C parentA parentB h w in
      let '(children, h2, w2) := crossover_run parentA parentB n' h1 w1 in
      (child :: children, h2, w2)
  end.

Fixpoint mutate_run (l : list loc) (h : list Organism) (w : W)
    : list loc * list Organism * W :=
  match l with
  | [] => ([], h, w)
  | o :: l' =>
      let '(o', h1, w1) := mutate C o h w in
      let '(results, h2, w2) := mutate_run l' h1 w1 in
      (o' :: results, h2, w2)
  end.

Fixpoint createOrganism_run (n : nat) (h : list Organism) (w : W)
    : list loc * list Organism * W :=
  match n with
  | O => ([], h, w)
  | S n' =>
      let '(o, h1, w1) := createOrganism C h w in
      let '(created, h2, w2) := createOrganism_run n' h1 w1 in
      (o :: created, h2, w2)
  end.

(** The loop bound [newModel.populationSize] is read once per loop: no
    callback of the loop body can reach [newModel]. *)
Definition iterations (m : loc) : M nat :=
  let* x := get_model m in ret (Z.to_nat (populationSize x)).

(** The default value of the constructor's [produceNextGeneration]. *)
Definition produceNextGeneration_default (model : loc) : M loc :=
  let* newModel := structuredClone model in
  let* _ := update_model newModel
              (fun m => set_generation (increment (generation m)) m) in
  let* sortedPopulation := sort_population newModel in
  let parentA := sortedPopulation !! 0 in
  let parentB := sortedPopulation !! 1 in
  let* _ := update_model newModel (set_population []) in
  let* n := iterations newModel in
  let* _ := crossover_loop newModel parentA parentB n in
  let* n := iterations newModel in
  let* _ := mutate_loop newModel 0 n in
  ret newModel.

(** ** The controller [GeneticAlgorithm] *)

Definition set_isRunning (b : bool) (g : GeneticAlgorithm) :=
  mkGA (state g) (model g) b (pending g).
Definition set_pending (q : list HostRequest) (g : GeneticAlgorithm) :=
  mkGA (state g) (model g) (isRunning g) q.

(** The reproduction strategy of the engine: the caller's, or the default. *)
Definition strategy : loc -> M loc :=
  match produceNextGeneration C with
  | Some f => f
  | None => produceNextGeneration_default
  end.


(** [for (i = 0; i < this.model.populationSize; i++)
       this.model.population.push(this.createOrganism())] *)
Fixpoint createOrganism_loop (model : loc) (n : nat) : M unit :=
  match n with
  | O => ret tt
  | S n' =>
      let* o := call_createOrganism in
      let* _ := update_model model
                  (fun m => set_population (population m ++ [o]) m) in
      createOrganism_loop model n'
  end.

(** The constructor's initialisation of [this.model]. *)
Definition initial_model (populationSize : Z) : M loc :=
  let* model := new_model (mkModel populationSize 0 []) in
  let* n := iterations model in
  let* _ := createOrganism_loop model n in
  ret model.

(** [new GeneticAlgorithm(..., populationSize)], run in store [s]; a caller
    that leaves [populationSize] out passes [50]. *)
Definition constructor (populationSize : Z) (s : State)
    : option GeneticAlgorithm :=
  match initial_model populationSize s with
  | Some (model, s') => Some (mkGA s' model false [])
  | None => None
  end.

(** [next()]: [requestAnimationFrame(() => { this.step(); })] *)
Definition next (g : GeneticAlgorithm) : GeneticAlgorithm :=
  set_pending (pending g ++ [AnimationFrame]) g.

Definition call_produceNextGeneration (g : GeneticAlgorithm)
    : option GeneticAlgorithm :=
  let s := state g in
  match strategy (model g)
          (mkState (organisms s) (models s) (env s)
                   (trace s ++ [EvProduceNextGeneration (model g)])) with
  | Some (newModel, s') => Some (mkGA s' newModel (isRunning g) (pending g))
  | None => None
  end.

Definition call_stepFunction (g : GeneticAlgorithm) : GeneticAlgorithm :=
  let s := state g in
  let '(h, ms, w) := stepFunction C (model g) (organisms s) (models s) (env s) in
  mkGA (mkState h ms w (trace s ++ [EvStepFunction (model g)]))
       (model g) (isRunning g) (pending g).

Definition test (p : loc -> list Organism -> list GeneticAlgorithmModel -> W -> bool)
    (g : GeneticAlgorithm) : bool :=
  p (model g) (organisms (state g)) (models (state g)) (env (state g)).

(** [step()] *)
Definition step (g : GeneticAlgorithm) : option GeneticAlgorithm :=
  let g1 := if test (shouldTerminate C) g then set_isRunning false g else g in
  if negb (isRunning g1) then Some g1
  else
    match (if test (shouldProgressGeneration C) g1
           then call_produceNextGeneration g1
           else Some g1) with
    | Some g2 =>
        if isRunning g2 then Some (next (call_stepFunction g2)) else Some g2
    | None => None
    end.

(** The statements [step()] executes, in the order of the method body:
    the test of [shouldTerminate] and the write it guards, the early
    [return], the test of [shouldProgressGeneration] and the call it guards,
    and last [this.stepFunction(this.model); this.next();]. *)
Definition step_effects (g : GeneticAlgorithm) : list Effect :=
  let terminate := test (shouldTerminate C) g in
  let g1 := if terminate then set_isRunning false g else g in
  [CallShouldTerminate] ++
  (if terminate then [WriteIsRunning false] else []) ++
  if negb (isRunning g1) then []
  else
    let progress := test (shouldProgressGeneration C) g1 in
    [CallShouldProgressGeneration] ++
    (if progress then [CallProduceNextGeneration] else []) ++
    match (if progress then call_produceNextGeneration g1 else Some g1) with
    | Some g2 =>
        if isRunning g2 then [CallStepFunction; RequestAnimationFrame] else []
    | None => []
    end.

(** [play()] and [pause()] *)
Definition play (g : GeneticAlgorithm) : GeneticAlgorithm :=
  next (set_isRunning true g).

Definition pause (g : GeneticAlgorithm) : GeneticAlgorithm :=
  set_isRunning false g.

(** The host fires the oldest registered callback: it leaves the queue and
    [step] runs.  With nothing registered there is nothing to fire. *)
Definition fire (g : GeneticAlgorithm) : option GeneticAlgorithm :=
  match pending g with
  | [] => Some g
  | _ :: q => step (set_pending q g)
  end.

(** What can happen to an engine: a caller's [play()] or [pause()], or the
    host firing a scheduled tick. *)
Inductive Action := Play | Pause | Tick.

#[global] Instance Action_eq_dec : EqDecision Action.
Proof. solve_decision. Defined.

Definition act (a : Action) (g : GeneticAlgorithm) : option GeneticAlgorithm :=
  match a with
  | Play => Some (play g)
  | Pause => Some (pause g)
  | Tick => fire g
  end.

Fixpoint run (l : list Action) (g : GeneticAlgorithm) : option GeneticAlgorithm :=
  match l with
  | [] => Some g
  | a :: l' => match act a g with
               | Some g' => run l' g'
               | None => None
               end
  end.

(** [k] invocations of [step()] in a row. *)
Fixpoint steps (k : nat) (g : GeneticAlgorithm) : option GeneticAlgorithm :=
  match k with
  | O => Some g
  | S k' => match step g with
            | Some g' => steps k' g'
            | None => None
            end
  end.

(** A sequence of actions in which [play()] is only called while no tick is
    registered with the host. *)
Fixpoint play_when_idle (l : list Action) (g : GeneticAlgorithm) : Prop :=
  match l with
  | [] => True
  | a :: l' =>
      (a = Play -> pending g = []) /\
      match act a g with
      | Some g' => play_when_idle l' g'
      | None => True
      end
  end.

(** ** The contract of the organism-level callbacks

    A call reads and writes only the organisms it is given and the ones it
    creates, and returns one of those: [h] and [h'] are the organisms before
    and after a call with arguments [args] and result [r]. *)
Definition local_effect (args : list loc) (h : list Organism) (r : loc)
    (h' : list Organism) : Prop :=
  length h <= length h' /\
  r < length h' /\
  (r ∈ args \/ length h <= r) /\
  forall l, l < length h -> l ∉ args -> h' !! l = h !! l.

Definition crossover_local : Prop :=
  forall parentA parentB h w,
    Forall (fun r => r < length h) (option_list parentA ++ option_list parentB) ->
    local_effect (option_list parentA ++ option_list parentB) h
      (crossover C parentA parentB h w).1.1 (crossover C parentA parentB h w).1.2.

Definition mutate_local : Prop :=
  forall o h w,
    o < length h ->
    local_effect [o] h (mutate C o h w).1.1 (mutate C o h w).1.2.

End Terrarium.

(** How a call ends. [OutOfFuel] belongs to the embedding of a [while] loop
    and not to JavaScript. *)
Inductive Outcome (A : Type) :=
| Returned (a : A)
| Thrown
| OutOfFuel.
Arguments Returned {A} a.
Arguments Thrown {A}.
Arguments OutOfFuel {A}.

(** ** Calls from outside

    The sample applications drive the engine from three buttons, whose
    handlers call [geneticAlgorithm.play()], [geneticAlgorithm.pause()] and
    [geneticAlgorithm.reset()]. *)
Section MethodCall.
Context {Genes W : Type}.
Variable C : Callbacks Genes W.

Local Abbreviation GeneticAlgorithm := (GeneticAlgorithm Genes W).

(** The methods that the body of [class GeneticAlgorithm] declares, by
    name: [step], [next], [play] and [pause] ([private] is checked by the
    compiler only). *)
Definition method (name : string)
    : option (GeneticAlgorithm -> option GeneticAlgorithm) :=
  if String.eqb name "step" then Some (step C)
  else if String.eqb name "next" then Some (fun g => Some (next g))
  else if String.eqb name "play" then Some (fun g => Some (play g))
  else if String.eqb name "pause" then Some (fun g => Some (pause g))
  else None.

(** [geneticAlgorithm.name()], for a [name] that is neither a field of the
    engine nor a member of [Object.prototype]: a method of the class runs;
    any other such name reads as [undefined], and the call throws a
    [TypeError]. *)
Definition call_method (name : string) (g : GeneticAlgorithm)
    : Outcome (option GeneticAlgorithm) :=
  match method name with
  | Some f => Returned (f g)
  | None => Thrown
  end.

End MethodCall.


(** ** A concrete collaborator

    The scenario of the specification, which is also the shape of the
    bundled knapsack sample: organisms carry one number, drawn from a
    counter; the fitness is that number; [crossover] returns a copy of
    [parentA]; [mutate] returns its argument; a generation advances on every
    tick and the run never terminates by itself. *)
Module Scenario.

Definition organism (n : Z) : Organism Z := mkOrganism n (1 # 100)%Q.

Definition createOrganism (h : list (Organism Z)) (w : Z)
    : loc * list (Organism Z) * Z :=
  (length h, h ++ [organism w], (w + 1)%Z).

Definition calculateFitness (h : list (Organism Z)) (w : Z) (o : loc) : Z :=
  match h !! o with
  | Some x => genes x
  | None => 0%Z
  end.

Definition crossover (parentA parentB : option loc)
    (h : list (Organism Z)) (w : Z) : loc * list (Organism Z) * Z :=
  match parentA with
  | Some a => match h !! a with
              | Some x => (length h, h ++ [x], w)
              | None => (length h, h ++ [organism 0], w)
              end
  | None => (length h, h ++ [organism 0], w)
  end.

Definition mutate (o : loc) (h : list (Organism Z)) (w : Z)
    : loc * list (Organism Z) * Z := (o, h, w).

Definition stepFunction (m : loc) (h : list (Organism Z))
    (ms : list GeneticAlgorithmModel) (w : Z)
    : list (Organism Z) * list GeneticAlgorithmModel * Z := (h, ms, w).

Definition always (b : bool) (m : loc) (h : list (Organism Z))
    (ms : list GeneticAlgorithmModel) (w : Z) : bool := b.

Definition callbacks : Callbacks Z Z :=
  mkCallbacks createOrganism stepFunction calculateFitness crossover mutate
              (always false) (always true) None.

(** The same collaborator with a termination predicate that holds. *)
Definition finished : Callbacks Z Z :=
  mkCallbacks createOrganism stepFunction calculateFitness crossover mutate
              (always true) (always true) None.

Definition empty : State Z Z := mkState [] [] 0%Z [].

(** [new GeneticAlgorithm(.., 4)] in the empty store. *)
Definition engine : option (GeneticAlgorithm Z Z) := constructor callbacks 4 empty.

(** The engine that [new GeneticAlgorithm(.., 4)] builds in the empty store. *)
Definition constructed : GeneticAlgorithm Z Z :=
  mkGA (mkState [organism 0; organism 1; organism 2; organism 3]
                [mkModel 4 0 [0; 1; 2; 3]] 4%Z
                [EvCreateOrganism 0; EvCreateOrganism 1;
                 EvCreateOrganism 2; EvCreateOrganism 3])
       0 false [].

(** The engine after the actions [l], from the constructed one. *)
Definition after (l : list Action) : GeneticAlgorithm Z Z :=
  match run callbacks l constructed with
  | Some g => g
  | None => constructed
  end.

End Scenario.


(** ** Contracts for a whole run of the engine *)
Section RunContracts.
Context {Genes W : Type}.
Variable C : Callbacks Genes W.

(** [createOrganism] returns an organism of the store it leaves, and frees
    nothing. *)
Definition createOrganism_valid : Prop :=
  forall h w,
    length h <= length (createOrganism C h w).1.2 /\
    (createOrganism C h w).1.1 < length (createOrganism C h w).1.2.

(** [stepFunction] leaves the model objects as they are and frees nothing
    (the hook of both bundled samples is [return;]). *)
Definition stepFunction_quiet : Prop :=
  forall m h ms w,
    (stepFunction C m h ms w).1.2 = ms /\
    length h <= length (stepFunction C m h ms w).1.1.

(** The engine's model is the object [x], well formed for [populationSize = n]. *)
Definition model_ok (n : Z) (g : GeneticAlgorithm Genes W)
    (x : GeneticAlgorithmModel) : Prop :=
  models (state g) !! model g = Some x /\
  populationSize x = n /\
  length (population x) = Z.to_nat n /\
  Forall (fun r => r < length (organisms (state g))) (population x).

(** How often the action [a] occurs in [l]. *)
Definition count_action (a : Action) (l : list Action) : nat :=
  length (filter (fun b => b = a) l).

End RunContracts.

(** ** The knapsack sample

    The organisms of the knapsack sample (the second application of the
    engine): items, [getRandomItem], [AVAILABLE_ITEMS] and the class
    [KnapsackOrganism].  [getRandomInt] is not part of the sources; it is a
    parameter, called with the state [R] of the random source. *)

Module Knapsack.

Definition MUTATION_CHANCE : Q := (1 # 100)%Q.
Definition WEIGHT_CAPACITY : Z := 400.
Definition MIN_WEIGHT : Z := 50.
Definition MAX_WEIGHT : Z := 100.
Definition MIN_VALUE : Z := 10.
Definition MAX_VALUE : Z := 40.
Definition NUM_ITEMS : nat := 15.

(** [enum Shape { Triangle, Circle, Square }]: the numbers 0, 1, 2. *)
Definition Triangle : Z := 0.
Definition Circle : Z := 1.
Definition Square : Z := 2.

Record Color := mkColor { red : Z; green : Z; blue : Z }.

(** [class Item] *)
Record Item := mkItem {
  shape : Z;
  weight : Z;
  value : Z;
  color : Color;
}.

(** [getWeight()] and [getValue()] of a [KnapsackOrganism] with these genes. *)
Definition getWeight (genes : list Item) : Z :=
  fold_left (fun acc item => (acc + weight item)%Z) genes 0%Z.

Definition getValue (genes : list Item) : Z :=
  fold_left (fun acc item => (acc + value item)%Z) genes 0%Z.

(** [calculateFitness(organism)] *)
Definition calculateFitness (organism : Organism (list Item)) : Z :=
  getValue (genes organism).

Section WithRandom.
Variable R : Type.
Variable getRandomInt : Z -> Z -> R -> Z * R.

(** What the callers expect of [getRandomInt(min, max)]: an integer between
    the two, both included. *)
Definition in_range : Prop :=
  forall lo hi r, (lo <= hi)%Z ->
    (lo <= (getRandomInt lo hi r).1 <= hi)%Z.

(** [getRandomItem()]: the arguments are evaluated left to right. *)
Definition getRandomItem (r : R) : Item * R :=
  let '(s, r1) := getRandomInt 0 Square r in
  let '(w, r2) := getRandomInt MIN_WEIGHT MAX_WEIGHT r1 in
  let '(v, r3) := getRandomInt MIN_VALUE MAX_VALUE r2 in
  let '(cr, r4) := getRandomInt 0 255 r3 in
  let '(cg, r5) := getRandomInt 0 255 r4 in
  let '(cb, r6) := getRandomInt 0 255 r5 in
  (mkItem s w v (mkColor cr cg cb), r6).

(** [for (i = 0; i < NUM_ITEMS; i++) AVAILABLE_ITEMS.push(getRandomItem())] *)
Fixpoint push_random_items (n : nat) (items : list Item) (r : R)
    : list Item * R :=
  match n with
  | O => (items, r)
  | S n' => let '(item, r') := getRandomItem r in
            push_random_items n' (items ++ [item]) r'
  end.

Definition AVAILABLE_ITEMS (r : R) : list Item * R :=
  push_random_items NUM_ITEMS [] r.

(** The loop of the constructor of [KnapsackOrganism]:
    [while (this.getWeight() < WEIGHT_CAPACITY || available_items_copy.length <= 0)]
    with body [push(available_items_copy[randomIndex]); splice(randomIndex, 1)].
    When [randomIndex] names no element, [undefined] is pushed and the next
    evaluation of the condition throws in [getWeight()], reading [weight]
    of [undefined]. *)
Fixpoint fill (fuel : nat) (genes available : list Item) (r : R)
    : Outcome (list Item * list Item * R) :=
  match fuel with
  | O => OutOfFuel
  | S fuel' =>
      if (getWeight genes <? WEIGHT_CAPACITY)%Z || (length available <=? 0)
      then
        let '(randomIndex, r') :=
          getRandomInt 0 (Z.of_nat (length available) - 1) r in
        match (if (0 <=? randomIndex)%Z
               then available !! Z.to_nat randomIndex else None) with
        | Some item =>
            fill fuel' (genes ++ [item]) (delete (Z.to_nat randomIndex) available) r'
        | None => Thrown
        end
      else Returned (genes, available, r)
  end.

(** [new KnapsackOrganism()], with the items of [AVAILABLE_ITEMS] copied;
    the last statement is [this.genes.pop()].  Every turn of the loop takes
    an item, so one turn more than there are items is all the loop can
    make. *)
Definition new_KnapsackOrganism (available_items : list Item) (r : R)
    : Outcome (Organism (list Item) * R) :=
  match fill (S (length available_items)) [] available_items r with
  | Returned (genes, _, r') =>
      Returned (mkOrganism (removelast genes) MUTATION_CHANCE, r')
  | Thrown => Thrown
  | OutOfFuel => OutOfFuel
  end.

(** The items that [getRandomItem] makes with a [getRandomInt] that keeps to
    its range. *)
Definition item_in_range (item : Item) : Prop :=
  (MIN_WEIGHT <= weight item <= MAX_WEIGHT)%Z /\
  (MIN_VALUE <= value item <= MAX_VALUE)%Z /\
  (Triangle <= shape item <= Square)%Z.

End WithRandom.

End Knapsack.

(** ** The colour scheme sample

    The organisms of [colorScheme.ts]: [ColorSchemeOrganism], [crossover]
    and [mutate].  The colour channels are JavaScript numbers on which
    [mutate] computes; they are kept abstract, with the operations the file
    uses, so that nothing is assumed of floating point arithmetic.
    [Math.random] and [getRandomInt] (which is not part of the sources) draw
    from a random source of state [Rand]. *)
Module ColorScheme.

Record Runtime := mkRuntime {
  num : Type;
  lit : Q -> num;
  add : num -> num -> num;
  sub : num -> num -> num;
  mul : num -> num -> num;
  div : num -> num -> num;
  ltb : num -> num -> bool;
  Rand : Type;
  random : Rand -> num * Rand;
  getRandomInt : Z -> Z -> Rand -> num * Rand;
}.

Definition MUTATION_CHANCE : Q := (1 # 10)%Q.
Definition COLOR_COUNT_EACH : nat := 5.

Section WithRuntime.
Variable J : Runtime.

(** [type ColorRGB] *)
Record ColorRGB := mkRGB {
  red : num J;
  green : num J;
  blue : num J;
}.

Definition set_red (x : num J) (c : ColorRGB) := mkRGB x (green c) (blue c).
Definition set_green (x : num J) (c : ColorRGB) := mkRGB (red c) x (blue c).
Definition set_blue (x : num J) (c : ColorRGB) := mkRGB (red c) (green c) x.

(** The loop of the constructor of [ColorSchemeOrganism]; the properties of
    the object literal are evaluated in the order red, green, blue. *)
Fixpoint push_random_colors (n : nat) (genes : list ColorRGB) (r : Rand J)
    : list ColorRGB * Rand J :=
  match n with
  | O => (genes, r)
  | S n' =>
      let '(x, r1) := getRandomInt J 0 255 r in
      let '(y, r2) := getRandomInt J 0 255 r1 in
      let '(z, r3) := getRandomInt J 0 255 r2 in
      push_random_colors n' (genes ++ [mkRGB x y z]) r3
  end.

(** [new ColorSchemeOrganism()], which is [createOrganism()] *)
Definition new_ColorSchemeOrganism (r : Rand J)
    : Organism (list ColorRGB) * Rand J :=
  let '(genes, r') := push_random_colors COLOR_COUNT_EACH [] r in
  (mkOrganism genes MUTATION_CHANCE, r').

(** [Math.random() > 0.5 ? parentA.genes[i].c : parentB.genes[i].c]: only
    the chosen parent is read; [None] is the [TypeError] of reading a
    channel of [undefined]. *)
Definition inherit (channel : ColorRGB -> num J)
    (parentA parentB : Organism (list ColorRGB)) (i : nat) (r : Rand J)
    : option (num J * Rand J) :=
  let '(x, r') := random J r in
  match genes (if ltb J (lit J (1 # 2)%Q) x then parentA else parentB) !! i with
  | Some c => Some (channel c, r')
  | None => None
  end.

(** The loop of [crossover], [n] turns from index [i] on. *)
Fixpoint crossover_genes (n i : nat) (offspring : list ColorRGB)
    (parentA parentB : Organism (list ColorRGB)) (r : Rand J)
    : option (list ColorRGB * Rand J) :=
  match n with
  | O => Some (offspring, r)
  | S n' =>
      match offspring !! i with
      | None => None
      | Some c =>
          match inherit red parentA parentB i r with
          | None => None
          | Some (x, r1) =>
              match inherit green parentA parentB i r1 with
              | None => None
              | Some (y, r2) =>
                  match inherit blue parentA parentB i r2 with
                  | None => None
                  | Some (z, r3) =>
                      crossover_genes n' (S i)
                        (<[i := set_blue z (set_green y (set_red x c))]> offspring)
                        parentA parentB r3
                  end
              end
          end
      end
  end.

(** [crossover(parentA, parentB)] *)
Definition crossover (parentA parentB : Organism (list ColorRGB)) (r : Rand J)
    : option (Organism (list ColorRGB) * Rand J) :=
  let '(offspring, r1) := new_ColorSchemeOrganism r in
  match crossover_genes (length (genes offspring)) 0 (genes offspring)
          parentA parentB r1 with
  | Some (gs, r2) => Some (mkOrganism gs (mutationChance offspring), r2)
  | None => None
  end.

(** One turn of the loop of [mutate], on the colour [c]. *)
Definition mutate_color (c : ColorRGB) (r : Rand J) : ColorRGB * Rand J :=
  let '(x, r1) := random J r in
  if ltb J x (lit J MUTATION_CHANCE)
  then
    let '(y, r2) := random J r1 in
    let mutationCoeff := div J y (lit J 2) in
    let '(z, r3) := random J r2 in
    if ltb J (lit J (1 # 2)%Q) z
    then (set_red (add J (red c) (mul J (red c) mutationCoeff)) c, r3)
    else (set_red (sub J (red c) (mul J (red c) mutationCoeff)) c, r3)
  else (c, r1).

(** The loop of [mutate], [n] turns from index [i] on.  The loop runs over
    the indices below [genes.length], which all hold a colour; the branch
    for an index without one is never taken. *)
Fixpoint mutate_genes (n i : nat) (gs : list ColorRGB) (r : Rand J)
    : list ColorRGB * Rand J :=
  match n with
  | O => (gs, r)
  | S n' =>
      match gs !! i with
      | Some c =>
          let '(c', r') := mutate_color c r in
          mutate_genes n' (S i) (<[i := c']> gs) r'
      | None => (gs, r)
      end
  end.

(** [mutate(organism)]: the organism is changed in place and returned. *)
Definition mutate (organism : Organism (list ColorRGB)) (r : Rand J)
    : Organism (list ColorRGB) * Rand J :=
  let '(gs, r') := mutate_genes (length (genes organism)) 0 (genes organism) r in
  (mkOrganism gs (mutationChance organism), r').

(** The colour [c] has each channel from the colour [a] or the colour [b]. *)
Definition mixes (a b c : ColorRGB) : Prop :=
  (red c = red a \/ red c = red b) /\
  (green c = green a \/ green c = green b) /\
  (blue c = blue a \/ blue c = blue b).

End WithRuntime.

End ColorScheme.

(** ** Concrete random sources and organisms for the samples *)
Module Demo.

(** A store with one organism and two models on it: one whose
    [populationSize] is zero, one that wants two organisms. *)
Definition lonely : State Z Z :=
  mkState [Scenario.organism 7] [mkModel 0 3 [0]; mkModel 2 0 [0]] 0%Z [].

(** A store whose model has counted [2^53] generations of two organisms. *)
Definition aged : State Z Z :=
  mkState [Scenario.organism 7; Scenario.organism 9]
          [mkModel 2 two53 [0; 1]] 0%Z [].

(** Three organisms as pairs of a fitness and a name. *)
Definition tied : list (Z * nat) := [(1%Z, 0); (3%Z, 1); (3%Z, 2)].

(** A random source that always draws the least number allowed. *)
Definition least (lo hi : Z) (r : nat) : Z * nat := (lo, S r).

Definition brick : Knapsack.Item :=
  Knapsack.mkItem 2 100 10 (Knapsack.mkColor 0 0 0).

(** Numbers as rationals; [Math.random] draws 1/4, 3/4, 1/4, ... *)
Definition runtime : ColorScheme.Runtime :=
  ColorScheme.mkRuntime Q (fun q => q) Qplus Qminus Qmult Qdiv
    (fun x y => negb (Qle_bool y x))
    nat
    (fun r => (if Nat.even r then (1 # 4)%Q else (3 # 4)%Q, S r))
    (fun lo hi r => (inject_Z lo, S r)).

Definition grey (n : Z) : ColorScheme.ColorRGB runtime :=
  ColorScheme.mkRGB runtime (inject_Z n) (inject_Z n) (inject_Z n).

Definition dark : Organism (list (ColorScheme.ColorRGB runtime)) :=
  mkOrganism [grey 1; grey 2; grey 3; grey 4; grey 5; grey 6] (1 # 2)%Q.

Definition light : Organism (list (ColorScheme.ColorRGB runtime)) :=
  mkOrganism [grey 201; grey 202; grey 203; grey 204; grey 205] (1 # 10)%Q.

End Demo.

(** * Properties *)

(** ** Numbers *)

(** Integers of magnitude below [2^53] are doubles. *)
Lemma round_to_double_exact (z : Z) :
  (Z.abs z < two53)%Z -> round_to_double z = z.
Proof.
  intros H. unfold round_to_double.
  destruct (Z.ltb_spec (Z.abs z) two53) as [_|Hge]; [reflexivity|lia].
Qed.

Lemma round_to_double_two53 : round_to_double two53 = two53.
Proof. vm_compute. reflexivity. Qed.

(** [2^53 + 1] is half way between two doubles and rounds to [2^53]. *)
Lemma increment_two53 : increment two53 = two53.
Proof. vm_compute. reflexivity. Qed.

(** Counting up is exact below [2^53]. *)
Lemma increment_exact (x : Z) :
  (- two53 <= x < two53)%Z -> increment x = (x + 1)%Z.
Proof.
  intros H. unfold increment.
  destruct (Z.eq_dec (x + 1)%Z two53) as [->|Hne].
  - apply round_to_double_two53.
  - apply round_to_double_exact. unfold two53 in *. lia.
Qed.

(** Past [2^53] the doubles are two apart and more: a sum that falls
    between two of them rounds to the one with the even significand. *)
Example round_to_double_ties :
  round_to_double (two53 + 1) = two53 /\
  round_to_double (two53 + 2) = (two53 + 2)%Z /\
  round_to_double (two53 + 3) = (two53 + 4)%Z /\
  round_to_double (- two53 - 1) = (- two53)%Z /\
  round_to_double (2 * two53 + 1) = (2 * two53)%Z /\
  round_to_double (2 * two53 + 2) = (2 * two53)%Z /\
  round_to_double (2 * two53 + 3) = (2 * two53 + 4)%Z /\
  round_to_double (2 * two53 + 6) = (2 * two53 + 8)%Z.
Proof. repeat apply conj; vm_compute; reflexivity. Qed.

(** A counter that started at [0] never passes [2^53]. *)
Lemma increment_bounds (x : Z) :
  (0 <= x <= two53)%Z ->
  (x <= increment x <= x + 1)%Z /\ (increment x <= two53)%Z.
Proof.
  intros H.
  destruct (Z.eq_dec x two53) as [->|Hne].
  - rewrite increment_two53. unfold two53. lia.
  - rewrite increment_exact by (unfold two53 in *; lia). lia.
Qed.

(** ** The sort *)
Section ArraySortFacts.
Context {A : Type}.

Lemma sort_insert_perm (c : A -> A -> Z) x l : sort_insert c x l ≡ₚ x :: l.
Proof.
  induction l as [|y l IH]; simpl; [done|].
  destruct (0 <? c x y)%Z; [|done].
  rewrite IH. apply Permutation_swap.
Qed.

Lemma array_sort_perm (c : A -> A -> Z) l : array_sort c l ≡ₚ l.
Proof.
  induction l as [|x l IH]; simpl; [done|].
  rewrite sort_insert_perm. by rewrite IH.
Qed.

Lemma array_sort_length (c : A -> A -> Z) l : length (array_sort c l) = length l.
Proof. by rewrite array_sort_perm. Qed.

(** With the comparator [(a, b) => f(b) - f(a)] the result is descending. *)
Lemma sort_insert_descending (f : A -> Z) x l :
  descending f l -> descending f (sort_insert (fun a b => (f b - f a)%Z) x l).
Proof.
  unfold descending. induction l as [|y l IH]; simpl; intros Hl.
  - repeat constructor.
  - apply StronglySorted_inv in Hl as [Hl Hy].
    destruct (Z.ltb_spec 0 (f y - f x)) as [Hlt|Hge].
    + constructor; [by apply IH|].
      rewrite sort_insert_perm. constructor; [lia|done].
    + constructor; [by constructor|].
      constructor; [lia|].
      eapply Forall_impl; [exact Hy|]. simpl. intros z Hz. lia.
Qed.

Lemma array_sort_descending (f : A -> Z) l :
  descending f (array_sort (fun a b => (f b - f a)%Z) l).
Proof.
  induction l as [|x l IH]; simpl.
  - constructor.
  - by apply sort_insert_descending.
Qed.
End ArraySortFacts.

(** ** The store operations and the loops of the default strategy *)
Section StrategyFacts.
Context {Genes W : Type}.
Variable C : Callbacks Genes W.

Local Abbreviation State := (State Genes W).
Local Abbreviation Organism := (Organism Genes).

Lemma refs_valid_Forall (h : list Organism) refs :
  refs_valid h refs = true -> Forall (fun r => r < length h) refs.
Proof.
  unfold refs_valid. rewrite forallb_forall, Forall_forall.
  intros H r Hr. apply Nat.ltb_lt, H. by apply list_elem_of_In.
Qed.

Lemma memo_find_range n k memo r v :
  memo_ok n k memo -> memo_find r memo = Some v -> n <= v < n + k.
Proof.
  unfold memo_ok. induction memo as [|[k0 v0] memo IH]; simpl; [done|].
  intros Hm. apply Forall_cons in Hm as [H0 Hm].
  destruct (Nat.eqb k0 r); [|by apply IH].
  intros [= <-]. exact H0.
Qed.

Lemma memo_ok_mono n k k' memo : k <= k' -> memo_ok n k memo -> memo_ok n k' memo.
Proof.
  unfold memo_ok. intros Hk Hm. eapply Forall_impl; [exact Hm|].
  intros [a b]; simpl. lia.
Qed.

(** Cloning valid references succeeds, allocates only after [src] and
    returns as many references, all of them to the new objects. *)
Lemma clone_refs_spec (src : list Organism) refs : forall memo acc,
  Forall (fun r => r < length src) refs ->
  memo_ok (length src) (length acc) memo ->
  exists out ext,
    clone_refs src refs memo acc = Some (out, acc ++ ext) /\
    length out = length refs /\
    Forall (fun r => length src <= r < length src + length (acc ++ ext)) out.
Proof.
  induction refs as [|r refs IH]; intros memo acc Hv Hm; cbn [clone_refs].
  - exists [], []. rewrite app_nil_r. by repeat split.
  - apply Forall_cons in Hv as [Hr Hv].
    destruct (memo_find r memo) as [v|] eqn:Hf.
    + destruct (IH memo acc Hv Hm) as (out & ext & -> & Hlen & Hout).
      exists (v :: out), ext. repeat split; [simpl; congruence|].
      constructor; [|done].
      pose proof (memo_find_range _ _ _ _ _ Hm Hf). rewrite length_app. lia.
    + destruct (src !! r) as [o|] eqn:Ho;
        [|apply lookup_ge_None in Ho; lia].
      destruct (IH ((r, length src + length acc) :: memo) (acc ++ [o]) Hv)
        as (out & ext & -> & Hlen & Hout).
      { constructor; [simpl; rewrite length_app; simpl; lia|].
        eapply memo_ok_mono; [|exact Hm]. rewrite length_app. lia. }
      exists (length src + length acc :: out), ([o] ++ ext).
      rewrite (assoc_L (++)). repeat split; [simpl; congruence|].
      constructor; [|done].
      rewrite !length_app. simpl. lia.
Qed.

Lemma get_model_eq m (s : State) x :
  models s !! m = Some x -> get_model m s = Some (x, s).
Proof. unfold get_model. by intros ->. Qed.

Lemma update_model_eq m f (s : State) x :
  models s !! m = Some x ->
  update_model m f s =
    Some (tt, mkState (organisms s) (<[m := f x]> (models s)) (env s) (trace s)).
Proof. unfold update_model. by intros ->. Qed.

Lemma set_population_id x : set_population (population x) x = x.
Proof. by destruct x. Qed.

Lemma crossover_loop_spec m pa pb n : forall (s : State) x,
  models s !! m = Some x ->
  crossover_loop C m pa pb n s =
    let '(children, h, w) := crossover_run C pa pb n (organisms s) (env s) in
    Some (tt, mkState h
                (<[m := set_population (population x ++ children) x]> (models s))
                w (trace s ++ map (EvCrossover pa pb) children)).
Proof.
  induction n as [|n IH]; intros s x Hx; cbn [crossover_loop crossover_run].
  - rewrite !app_nil_r, set_population_id, list_insert_id by done.
    by destruct s.
  - unfold bind at 1, call_crossover.
    destruct (crossover C pa pb (organisms s) (env s)) as [[child h1] w1].
    unfold bind at 1.
    erewrite update_model_eq by exact Hx. cbn [organisms models env trace].
    erewrite IH; cbn [organisms models env trace].
    2:{ apply list_lookup_insert_eq. by eapply lookup_lt_Some. }
    destruct (crossover_run C pa pb n h1 w1) as [[children h2] w2].
    rewrite list_insert_insert_eq. cbn [map].
    unfold set_population; cbn [population populationSize generation].
    by rewrite <- !(assoc_L (++)).
Qed.

Lemma mutate_loop_spec m todo : forall i (s : State) x done,
  models s !! m = Some x ->
  population x = done ++ todo ->
  length done = i ->
  mutate_loop C m i (length todo) s =
    let '(results, h, w) := mutate_run C todo (organisms s) (env s) in
    Some (tt, mkState h
                (<[m := set_population (done ++ results) x]> (models s))
                w (trace s ++ zip_with EvMutate todo results)).
Proof.
  induction todo as [|o todo IH]; intros i s x done Hx Hp Hi;
    cbn [mutate_loop mutate_run length].
  - rewrite app_nil_r in *. rewrite <- Hp, set_population_id.
    rewrite list_insert_id by done. cbn. rewrite app_nil_r. by destruct s.
  - unfold bind at 1, get_population_at. unfold bind at 1.
    erewrite get_model_eq by exact Hx.
    assert (population x !! i = Some o) as ->.
    { rewrite Hp, <- Hi. by rewrite list_lookup_middle. }
    unfold bind at 1, call_mutate.
    destruct (mutate C o (organisms s) (env s)) as [[o' h1] w1].
    unfold bind at 1.
    erewrite update_model_eq by exact Hx. cbn [organisms models env trace].
    erewrite (IH (S i) _ _ (done ++ [o'])); cbn [organisms models env trace].
    2:{ apply list_lookup_insert_eq. by eapply lookup_lt_Some. }
    2:{ cbn [set_population population]. rewrite Hp, <- Hi.
        rewrite insert_app_r_alt, Nat.sub_diag by done. cbn.
        by rewrite <- (assoc_L (++)). }
    2:{ rewrite length_app. cbn. lia. }
    destruct (mutate_run C todo h1 w1) as [[results h2] w2].
    rewrite list_insert_insert_eq. cbn [zip_with].
    unfold set_population; cbn [population populationSize generation].
    by rewrite <- !(assoc_L (++)).
Qed.

Lemma crossover_run_length pa pb n : forall (h : list Organism) w,
  length (crossover_run C pa pb n h w).1.1 = n.
Proof.
  induction n as [|n IH]; intros h w; cbn [crossover_run]; [done|].
  destruct (crossover C pa pb h w) as [[child h1] w1].
  specialize (IH h1 w1).
  destruct (crossover_run C pa pb n h1 w1) as [[children h2] w2].
  cbn in *. by rewrite IH.
Qed.

Lemma mutate_run_length l : forall (h : list Organism) w,
  length (mutate_run C l h w).1.1 = length l.
Proof.
  induction l as [|o l IH]; intros h w; cbn [mutate_run]; [done|].
  destruct (mutate C o h w) as [[o' h1] w1].
  specialize (IH h1 w1).
  destruct (mutate_run C l h1 w1) as [[results h2] w2].
  cbn in *. by rewrite IH.
Qed.

Lemma lookup_last_model (ms : list GeneticAlgorithmModel) x :
  (ms ++ [x]) !! length ms = Some x.
Proof. by rewrite list_lookup_middle. Qed.

Lemma insert_last_model (ms : list GeneticAlgorithmModel) x y :
  <[length ms := y]> (ms ++ [x]) = ms ++ [y].
Proof. by rewrite insert_app_r_alt, Nat.sub_diag. Qed.

(** The default strategy, step by step: the outcome in terms of the clone,
    the sort and the two runs of callbacks. *)
Lemma produceNextGeneration_default_spec (s : State) m x cloned acc :
  models s !! m = Some x ->
  clone_refs (organisms s) (population x) [] [] = Some (cloned, acc) ->
  produceNextGeneration_default C m s =
    let h1 := organisms s ++ acc in
    let sorted := array_sort (fitness_cmp C h1 (env s)) cloned in
    let pa := sorted !! 0 in
    let pb := sorted !! 1 in
    let '(children, h2, w2) :=
      crossover_run C pa pb (Z.to_nat (populationSize x)) h1 (env s) in
    let '(results, h3, w3) := mutate_run C children h2 w2 in
    Some (length (models s),
          mkState h3
            (models s ++ [mkModel (populationSize x) (increment (generation x)) results])
            w3
            (trace s ++ map (EvCrossover pa pb) children
                     ++ zip_with EvMutate children results)).
Proof.
  intros Hx Hc. unfold produceNextGeneration_default.
  unfold bind at 1, structuredClone. unfold bind at 1.
  erewrite get_model_eq by exact Hx. rewrite Hc.
  unfold new_model; cbn [organisms models env trace].
  unfold bind at 1. erewrite update_model_eq by apply lookup_last_model.
  cbn [organisms models env trace]. rewrite insert_last_model.
  unfold bind at 1, sort_population. unfold bind at 1.
  erewrite get_model_eq by apply lookup_last_model.
  cbn [organisms models env trace].
  unfold bind at 1. erewrite update_model_eq by apply lookup_last_model.
  cbn [organisms models env trace ret]. rewrite insert_last_model.
  cbn [set_generation set_population populationSize generation population].
  set (sorted := array_sort _ cloned).
  unfold bind at 1. erewrite update_model_eq by apply lookup_last_model.
  cbn [organisms models env trace]. rewrite insert_last_model.
  cbn [set_generation set_population populationSize generation population].
  unfold bind at 1, iterations. unfold bind at 1.
  erewrite get_model_eq by apply lookup_last_model.
  cbn [ret populationSize].
  unfold bind at 1. erewrite crossover_loop_spec by apply lookup_last_model.
  cbn [organisms models env trace].
  pose proof (crossover_run_length (sorted !! 0) (sorted !! 1)
                (Z.to_nat (populationSize x)) (organisms s ++ acc) (env s)) as Hn.
  destruct (crossover_run C _ _ _ _ _) as [[children h2] w2].
  cbn in Hn. rewrite insert_last_model.
  cbn [set_generation set_population populationSize generation population app].
  unfold bind at 1. unfold bind at 1.
  erewrite get_model_eq by apply lookup_last_model.
  cbn [ret set_generation set_population populationSize generation population].
  unfold bind at 1. rewrite <- Hn.
  erewrite (mutate_loop_spec _ children 0 _ _ []);
    [|apply lookup_last_model|done|done].
  cbn [organisms models env trace].
  destruct (mutate_run C children h2 w2) as [[results h3] w3].
  rewrite insert_last_model.
  cbn [set_generation set_population populationSize generation population app ret].
  by rewrite <- (assoc_L (++)).
Qed.




(** Valid references can always be cloned. *)
Lemma clone_refs_total (h : list Organism) refs :
  refs_valid h refs = true ->
  exists cloned acc,
    clone_refs h refs [] [] = Some (cloned, acc) /\
    length cloned = length refs /\
    Forall (fun r => length h <= r < length (h ++ acc)) cloned.
Proof.
  intros Hv. apply refs_valid_Forall in Hv.
  destruct (clone_refs_spec h refs [] [] Hv) as (out & ext & Hc & Hl & Ho).
  { constructor. }
  exists out, ext. cbn in *. repeat split; [done..|].
  eapply Forall_impl; [exact Ho|]. intros r. cbn. rewrite length_app. lia.
Qed.

Lemma createOrganism_run_length n : forall (h : list Organism) w,
  length (createOrganism_run C n h w).1.1 = n.
Proof.
  induction n as [|n IH]; intros h w; cbn [createOrganism_run]; [done|].
  destruct (createOrganism C h w) as [[o h1] w1].
  specialize (IH h1 w1).
  destruct (createOrganism_run C n h1 w1) as [[created h2] w2].
  cbn in *. by rewrite IH.
Qed.

Lemma createOrganism_loop_spec m n : forall (s : State) x,
  models s !! m = Some x ->
  createOrganism_loop C m n s =
    let '(created, h, w) := createOrganism_run C n (organisms s) (env s) in
    Some (tt, mkState h
                (<[m := set_population (population x ++ created) x]> (models s))
                w (trace s ++ map EvCreateOrganism created)).
Proof.
  induction n as [|n IH]; intros s x Hx;
    cbn [createOrganism_loop createOrganism_run].
  - rewrite !app_nil_r, set_population_id, list_insert_id by done.
    by destruct s.
  - unfold bind at 1, call_createOrganism.
    destruct (createOrganism C (organisms s) (env s)) as [[o h1] w1].
    unfold bind at 1.
    erewrite update_model_eq by exact Hx. cbn [organisms models env trace].
    erewrite IH; cbn [organisms models env trace].
    2:{ apply list_lookup_insert_eq. by eapply lookup_lt_Some. }
    destruct (createOrganism_run C n h1 w1) as [[created h2] w2].
    rewrite list_insert_insert_eq. cbn [map].
    unfold set_population; cbn [population populationSize generation].
    by rewrite <- !(assoc_L (++)).
Qed.

(** The constructor's model: [populationSize], generation [0] and the
    organisms that [createOrganism] returned, in call order. *)
Lemma initial_model_spec n (s : State) :
  initial_model C n s =
    let '(created, h, w) :=
      createOrganism_run C (Z.to_nat n) (organisms s) (env s) in
    Some (length (models s),
          mkState h (models s ++ [mkModel n 0 created]) w
                  (trace s ++ map EvCreateOrganism created)).
Proof.
  unfold initial_model. unfold bind at 1, new_model.
  unfold bind at 1, iterations. unfold bind at 1.
  erewrite get_model_eq by apply lookup_last_model.
  cbn [ret populationSize]. unfold bind at 1.
  erewrite createOrganism_loop_spec by apply lookup_last_model.
  cbn [organisms models env trace].
  destruct (createOrganism_run C _ _ _) as [[created h] w].
  by rewrite insert_last_model.
Qed.

Lemma constructor_spec n (s : State) :
  exists created h w,
    createOrganism_run C (Z.to_nat n) (organisms s) (env s) = (created, h, w) /\
    constructor C n s =
      Some (mkGA (mkState h (models s ++ [mkModel n 0 created]) w
                          (trace s ++ map EvCreateOrganism created))
                 (length (models s)) false []).
Proof.
  unfold constructor. rewrite initial_model_spec.
  destruct (createOrganism_run C _ _ _) as [[created h] w].
  by exists created, h, w.
Qed.

End StrategyFacts.

(** ** The model invariants *)
Section ModelInvariants.
Context {Genes W : Type}.
Variable C : Callbacks Genes W.

Local Abbreviation State := (State Genes W).

(** C1.  The population has [populationSize] organisms after construction
    and after every run of the default reproduction strategy, on any model
    of the store: for a [populationSize] that is a count, the constructor
    yields an engine whose model has [length population = populationSize],
    and the default strategy, run on a model [x] of a well-formed store,
    returns a model with the [populationSize] of [x] and as many organisms. *)
Theorem population_length_invariant (n : Z) (s0 s : State) (m : loc)
    (x : GeneticAlgorithmModel) :
  (0 <= n)%Z ->
  models s !! m = Some x ->
  refs_valid (organisms s) (population x) = true ->
  (0 <= populationSize x)%Z ->
  (exists g x0,
      constructor C n s0 = Some g /\
      models (state g) !! model g = Some x0 /\
      populationSize x0 = n /\
      Z.of_nat (length (population x0)) = populationSize x0) /\
  (exists m' s' x',
      produceNextGeneration_default C m s = Some (m', s') /\
      models s' !! m' = Some x' /\
      populationSize x' = populationSize x /\
      Z.of_nat (length (population x')) = populationSize x').
Proof.
  intros Hn Hx Hv Hp. split.
  - destruct (constructor_spec C n s0) as (created & h & w & Hrun & ->).
    eexists _, _. split; [done|]. cbn [state model models].
    split; [apply lookup_last_model|]. cbn. split; [done|].
    pose proof (createOrganism_run_length C (Z.to_nat n) (organisms s0) (env s0)) as Hl.
    rewrite Hrun in Hl. cbn in Hl. lia.
  - destruct (clone_refs_total (organisms s) _ Hv) as (cloned & acc & Hc & _ & _).
    rewrite (produceNextGeneration_default_spec C s m x cloned acc Hx Hc).
    cbn zeta.
    set (sorted := array_sort _ cloned).
    pose proof (crossover_run_length C (sorted !! 0) (sorted !! 1)
                  (Z.to_nat (populationSize x)) (organisms s ++ acc) (env s)) as Hl.
    destruct (crossover_run C _ _ _ _ _) as [[children h2] w2].
    pose proof (mutate_run_length C children h2 w2) as Hl2.
    destruct (mutate_run C children h2 w2) as [[results h3] w3].
    cbn in Hl, Hl2.
    eexists _, _, _. split; [done|]. cbn [models].
    split; [apply lookup_last_model|]. cbn. split; [done|]. lia.
Qed.

(** C2, as the code has it.  [generation] is [0] in the constructed engine,
    and one run of the default reproduction strategy on a model of
    generation [N] with [-2^53 <= N < 2^53], the range in which a double
    counts exactly, returns a model of generation [N + 1]. *)
Theorem generation_advances_by_one (n : Z) (s0 s : State) (m : loc)
    (x : GeneticAlgorithmModel) :
  models s !! m = Some x ->
  refs_valid (organisms s) (population x) = true ->
  (- two53 <= generation x < two53)%Z ->
  (exists g x0,
      constructor C n s0 = Some g /\
      models (state g) !! model g = Some x0 /\
      generation x0 = 0%Z) /\
  (exists m' s' x',
      produceNextGeneration_default C m s = Some (m', s') /\
      models s' !! m' = Some x' /\
      generation x' = (generation x + 1)%Z).
Proof.
  intros Hx Hv Hb. split.
  - destruct (constructor_spec C n s0) as (created & h & w & Hrun & ->).
    eexists _, _. split; [done|]. cbn [state model models].
    split; [apply lookup_last_model|done].
  - destruct (clone_refs_total (organisms s) _ Hv) as (cloned & acc & Hc & _ & _).
    rewrite (produceNextGeneration_default_spec C s m x cloned acc Hx Hc).
    cbn zeta.
    destruct (crossover_run C _ _ _ _ _) as [[children h2] w2].
    destruct (mutate_run C children h2 w2) as [[results h3] w3].
    eexists _, _, _. split; [done|]. cbn [models].
    split; [apply lookup_last_model|]. cbn [generation].
    by apply increment_exact.
Qed.

End ModelInvariants.

(** ** The default reproduction strategy *)
Section DefaultStrategy.
Context {Genes W : Type}.
Variable C : Callbacks Genes W.

Local Abbreviation State := (State Genes W).
Local Abbreviation Organism := (Organism Genes).

Lemma descending_top {A} (f : A -> Z) l a :
  descending f l -> l !! 0 = Some a -> Forall (fun r => (f r <= f a)%Z) l.
Proof.
  destruct l as [|a' l]; [done|]. intros Hd [= ->].
  apply StronglySorted_inv in Hd as [_ Hd]. constructor; [lia|done].
Qed.



Lemma option_list_valid (sorted : list loc) (P : loc -> Prop) i j :
  Forall P sorted ->
  Forall P (option_list (sorted !! i) ++ option_list (sorted !! j)).
Proof.
  intros H. apply Forall_app. split.
  - destruct (sorted !! i) eqn:E; cbn; [|constructor].
    constructor; [|constructor]. by eapply Forall_lookup_1.
  - destruct (sorted !! j) eqn:E; cbn; [|constructor].
    constructor; [|constructor]. by eapply Forall_lookup_1.
Qed.

(** Callbacks that keep to their arguments, called on organisms allocated
    from [n0] on, leave the organisms below [n0] as they are and return
    organisms allocated from [n0] on. *)
Lemma crossover_run_local n0 pa pb n :
  crossover_local C ->
  forall (h : list Organism) w children h' w',
    n0 <= length h ->
    Forall (fun r => n0 <= r < length h) (option_list pa ++ option_list pb) ->
    crossover_run C pa pb n h w = (children, h', w') ->
    length h <= length h' /\
    (forall l, l < n0 -> h' !! l = h !! l) /\
    Forall (fun r => n0 <= r < length h') children.
Proof.
  intros Hloc. induction n as [|n IH]; intros h w children h' w' Hn Hargs;
    cbn [crossover_run].
  - intros [= <- <- <-]. by repeat split.
  - pose proof (Hloc pa pb h w) as Hcall.
    destruct (crossover C pa pb h w) as [[child h1] w1]. cbn in Hcall.
    destruct Hcall as (Hlen & Hchild & Hwhere & Hframe).
    { eapply Forall_impl; [exact Hargs|]. cbn. lia. }
    destruct (crossover_run C pa pb n h1 w1) as [[children' h2] w2] eqn:Hrun.
    intros [= <- <- <-].
    destruct (IH h1 w1 children' h2 w2) as (Hlen' & Hframe' & Hch'); [lia| |done|].
    { eapply Forall_impl; [exact Hargs|]. cbn. lia. }
    split; [lia|]. split.
    + intros l Hl. rewrite Hframe' by done. apply Hframe; [lia|].
      intros Hin. rewrite Forall_forall in Hargs. apply Hargs in Hin. lia.
    + constructor; [|done]. split; [|lia].
      destruct Hwhere as [Hin|]; [|lia].
      rewrite Forall_forall in Hargs. apply Hargs in Hin. lia.
Qed.

Lemma mutate_run_local n0 todo :
  mutate_local C ->
  forall (h : list Organism) w results h' w',
    n0 <= length h ->
    Forall (fun r => n0 <= r < length h) todo ->
    mutate_run C todo h w = (results, h', w') ->
    length h <= length h' /\
    (forall l, l < n0 -> h' !! l = h !! l) /\
    Forall (fun r => n0 <= r < length h') results.
Proof.
  intros Hloc. induction todo as [|o todo IH]; intros h w results h' w' Hn Htodo;
    cbn [mutate_run].
  - intros [= <- <- <-]. by repeat split.
  - apply Forall_cons in Htodo as [Ho Htodo].
    pose proof (Hloc o h w) as Hcall.
    destruct (mutate C o h w) as [[o' h1] w1]. cbn in Hcall.
    destruct Hcall as (Hlen & Hres & Hwhere & Hframe); [lia|].
    destruct (mutate_run C todo h1 w1) as [[results' h2] w2] eqn:Hrun.
    intros [= <- <- <-].
    destruct (IH h1 w1 results' h2 w2) as (Hlen' & Hframe' & Hres'); [lia| |done|].
    { eapply Forall_impl; [exact Htodo|]. cbn. lia. }
    split; [lia|]. split.
    + intros l Hl. rewrite Hframe' by done. apply Hframe; [lia|].
      rewrite list_elem_of_singleton. lia.
    + constructor; [|done]. split; [|lia].
      destruct Hwhere as [Hin|]; [|lia].
      apply list_elem_of_singleton in Hin. lia.
Qed.

(** C9.  With callbacks that keep to their arguments, the default strategy
    leaves every object of its input store as it was, the input model and
    all its organisms among them, and returns a new model object whose
    population refers only to organisms allocated during the call. *)
Theorem default_strategy_no_aliasing (s : State) (m : loc)
    (x : GeneticAlgorithmModel) :
  crossover_local C ->
  mutate_local C ->
  models s !! m = Some x ->
  refs_valid (organisms s) (population x) = true ->
  exists m' s' x',
    produceNextGeneration_default C m s = Some (m', s') /\
    models s' !! m = Some x /\
    (forall k, k < length (models s) -> models s' !! k = models s !! k) /\
    (forall l, l < length (organisms s) -> organisms s' !! l = organisms s !! l) /\
    models s' !! m' = Some x' /\
    m' <> m /\
    Forall (fun r => length (organisms s) <= r < length (organisms s'))
           (population x') /\
    (forall r, r ∈ population x' -> r ∉ population x).
Proof.
  intros Hcross Hmut Hx Hv.
  destruct (clone_refs_total (organisms s) _ Hv) as (cloned & acc & Hc & _ & Hcl).
  rewrite (produceNextGeneration_default_spec C s m x cloned acc Hx Hc).
  cbn zeta.
  set (sorted := array_sort (fitness_cmp C (organisms s ++ acc) (env s)) cloned).
  assert (Forall (fun r => length (organisms s) <= r < length (organisms s ++ acc))
                 sorted) as Hsorted.
  { unfold sorted. by rewrite array_sort_perm. }
  destruct (crossover_run C _ _ _ _ _) as [[children h2] w2] eqn:Hrun1.
  destruct (mutate_run C children h2 w2) as [[results h3] w3] eqn:Hrun2.
  assert (length (organisms s) <= length (organisms s ++ acc)) as Hn1
    by (rewrite length_app; lia).
  destruct (crossover_run_local (length (organisms s)) _ _ _ Hcross
              _ _ _ _ _ Hn1 (option_list_valid sorted _ 0 1 Hsorted) Hrun1)
    as (Hlen1 & Hframe1 & Hchildren).
  assert (length (organisms s) <= length h2) as Hn2 by lia.
  destruct (mutate_run_local (length (organisms s)) _ Hmut
              _ _ _ _ _ Hn2 Hchildren Hrun2)
    as (Hlen2 & Hframe2 & Hresults).
  pose proof (lookup_lt_Some _ _ _ Hx) as Hm.
  eexists _, _, _. split; [done|]. cbn [models organisms].
  split; [by rewrite lookup_app_l|].
  split; [intros k Hk; by rewrite lookup_app_l|].
  split.
  { intros l Hl. rewrite Hframe2, Hframe1 by done. by rewrite lookup_app_l. }
  split; [apply lookup_last_model|].
  split; [lia|]. cbn [population].
  split; [done|].
  intros r Hr Hin. apply refs_valid_Forall in Hv.
  rewrite Forall_forall in Hv, Hresults.
  apply Hv in Hin. apply Hresults in Hr. lia.
Qed.

End DefaultStrategy.

(** ** The controller *)
Section Controller.
Context {Genes W : Type}.
Variable C : Callbacks Genes W.

Local Abbreviation GeneticAlgorithm := (GeneticAlgorithm Genes W).

Lemma set_isRunning_same (g : GeneticAlgorithm) b :
  isRunning g = b -> set_isRunning b g = g.
Proof. destruct g; cbn. by intros ->. Qed.

Lemma set_pending_same (g : GeneticAlgorithm) : set_pending (pending g) g = g.
Proof. by destruct g. Qed.

(** A tick of an engine that is not running does nothing. *)
Lemma step_idle (g : GeneticAlgorithm) : isRunning g = false -> step C g = Some g.
Proof.
  intros Hr. unfold step.
  destruct (test (shouldTerminate C) g).
  - by rewrite (set_isRunning_same g false Hr), Hr.
  - by rewrite Hr.
Qed.

Lemma steps_idle k (g : GeneticAlgorithm) :
  isRunning g = false -> steps C k g = Some g.
Proof.
  intros Hr. induction k as [|k IH]; cbn [steps]; [done|].
  by rewrite step_idle.
Qed.

Lemma fire_idle (g : GeneticAlgorithm) :
  isRunning g = false -> fire C g = Some (set_pending (drop 1 (pending g)) g).
Proof.
  intros Hr. unfold fire. destruct (pending g) as [|r q] eqn:Hq.
  - cbn. by rewrite <- Hq, set_pending_same.
  - by rewrite step_idle.
Qed.

Lemma run_ticks_idle k : forall g : GeneticAlgorithm,
  isRunning g = false ->
  run C (replicate k Tick) g = Some (set_pending (drop k (pending g)) g).
Proof.
  induction k as [|k IH]; intros g Hr; cbn [replicate run act].
  - by rewrite drop_0, set_pending_same.
  - rewrite fire_idle by done. rewrite IH by done.
    unfold set_pending; cbn [pending state model isRunning].
    by rewrite drop_drop.
Qed.

(** Without a [play()], an engine that is not running stays as it is; only
    the host's queue drains. *)
Lemma run_idle l : forall g : GeneticAlgorithm,
  isRunning g = false ->
  Play ∉ l ->
  exists q, run C l g = Some (set_pending q g).
Proof.
  induction l as [|a l IH]; intros g Hr Hl; cbn [run].
  - exists (pending g). by rewrite set_pending_same.
  - apply not_elem_of_cons in Hl as [Ha Hl].
    destruct a; [done| |]; cbn [act].
    + unfold pause. rewrite (set_isRunning_same g false Hr). by apply IH.
    + rewrite fire_idle by done.
      destruct (IH (set_pending (drop 1 (pending g)) g) Hr Hl) as [q ->].
      by exists q.
Qed.

(** C4.  When [shouldTerminate(model)] holds at the entry of a tick, [step]
    sets [isRunning] to false and returns: the store with its log of
    callback calls is as before, so neither [produceNextGeneration] nor
    [stepFunction] ran, and nothing was added to the host's queue.  Any
    number of further [step] invocations then changes nothing, and any
    sequence of ticks and [pause()] calls, without [play()], leaves
    [isRunning] false and the store as it is. *)
Theorem termination_latch (g : GeneticAlgorithm) (k : nat) (l : list Action) :
  test (shouldTerminate C) g = true ->
  Play ∉ l ->
  exists g',
    step C g = Some g' /\
    isRunning g' = false /\
    state g' = state g /\
    model g' = model g /\
    pending g' = pending g /\
    steps C k g' = Some g' /\
    exists g'',
      run C l g' = Some g'' /\
      isRunning g'' = false /\ state g'' = state g /\ model g'' = model g.
Proof.
  intros Ht Hl. exists (set_isRunning false g).
  split. { unfold step. by rewrite Ht. }
  repeat (split; [done|]).
  split; [by apply steps_idle|].
  destruct (run_idle l (set_isRunning false g) eq_refl Hl) as [q ->].
  by eexists.
Qed.

(** C5.  After [pause()], any number of ticks fired by the host leaves the
    store and the engine's model reference as they were, whatever
    [shouldTerminate] answers, and registers nothing: the queue only loses
    the callbacks that fired. *)
Theorem paused_ticks_do_nothing (g : GeneticAlgorithm) (k : nat) :
  exists g',
    run C (replicate k Tick) (pause g) = Some g' /\
    state g' = state g /\
    model g' = model g /\
    isRunning g' = false /\
    pending g' = drop k (pending g).
Proof.
  rewrite run_ticks_idle by done. by eexists.
Qed.

(** C10.  [play()] and [pause()] leave the store and the engine's model
    reference untouched, and with them [populationSize], [generation] and
    [population] of the model; they set [isRunning]. *)
Theorem play_pause_keep_model (g : GeneticAlgorithm) :
  (state (play g) = state g /\
   model (play g) = model g /\
   models (state (play g)) !! model (play g) = models (state g) !! model g /\
   isRunning (play g) = true) /\
  (state (pause g) = state g /\
   model (pause g) = model g /\
   models (state (pause g)) !! model (pause g) = models (state g) !! model g /\
   isRunning (pause g) = false /\
   pending (pause g) = pending g).
Proof. by repeat split. Qed.

(** What a tick does to the host's queue: nothing, or one more animation
    frame request. *)
Lemma call_produceNextGeneration_fields (g g' : GeneticAlgorithm) :
  call_produceNextGeneration C g = Some g' ->
  isRunning g' = isRunning g /\ pending g' = pending g.
Proof.
  unfold call_produceNextGeneration.
  destruct (strategy C _ _) as [[m' s']|]; [|done]. by intros [= <-].
Qed.

Lemma call_stepFunction_fields (g : GeneticAlgorithm) :
  isRunning (call_stepFunction C g) = isRunning g /\
  pending (call_stepFunction C g) = pending g /\
  model (call_stepFunction C g) = model g.
Proof.
  unfold call_stepFunction.
  by destruct (stepFunction C _ _ _ _) as [[h ms] w].
Qed.

Lemma step_running (g g' : GeneticAlgorithm) :
  step C g = Some g' ->
  isRunning g' = true ->
  pending g' = pending g ++ [AnimationFrame].
Proof.
  unfold step.
  set (g1 := if test (shouldTerminate C) g then set_isRunning false g else g).
  assert (pending g1 = pending g) as Hq1 by (unfold g1; by destruct (test _ g)).
  destruct (isRunning g1) eqn:Hr1; cbn [negb].
  2:{ intros [= <-]. congruence. }
  destruct (if test (shouldProgressGeneration C) g1
            then call_produceNextGeneration C g1 else Some g1) as [g2|] eqn:Hg2;
    [|done].
  assert (isRunning g2 = true /\ pending g2 = pending g) as [Hr2 Hq2].
  { destruct (test (shouldProgressGeneration C) g1).
    - apply call_produceNextGeneration_fields in Hg2 as [-> ->]. by rewrite Hq1.
    - injection Hg2 as <-. by rewrite Hq1. }
  rewrite Hr2. intros [= <-] _. unfold next. cbn [pending set_pending].
  destruct (call_stepFunction_fields g2) as (_ & -> & _). by rewrite Hq2.
Qed.

Lemma step_stopped (g g' : GeneticAlgorithm) :
  step C g = Some g' ->
  isRunning g' = false ->
  pending g' = pending g.
Proof.
  unfold step.
  set (g1 := if test (shouldTerminate C) g then set_isRunning false g else g).
  assert (pending g1 = pending g) as Hq1 by (unfold g1; by destruct (test _ g)).
  destruct (isRunning g1) eqn:Hr1; cbn [negb].
  2:{ by intros [= <-]. }
  destruct (if test (shouldProgressGeneration C) g1
            then call_produceNextGeneration C g1 else Some g1) as [g2|] eqn:Hg2;
    [|done].
  assert (isRunning g2 = true) as Hr2.
  { destruct (test (shouldProgressGeneration C) g1).
    - by apply call_produceNextGeneration_fields in Hg2 as [-> _].
    - by injection Hg2 as <-. }
  rewrite Hr2. intros [= <-]. unfold next. cbn [isRunning set_pending].
  destruct (call_stepFunction_fields g2) as (-> & _ & _). congruence.
Qed.

(** The request is made last: when a tick registers its successor, the
    latest callback call in the log is that tick's [stepFunction(model)]. *)
Lemma step_running_trace (g g' : GeneticAlgorithm) :
  step C g = Some g' ->
  isRunning g' = true ->
  last (trace (state g')) = Some (EvStepFunction (model g')).
Proof.
  unfold step.
  set (g1 := if test (shouldTerminate C) g then set_isRunning false g else g).
  destruct (isRunning g1) eqn:Hr1; cbn [negb].
  2:{ intros [= <-]. congruence. }
  destruct (if test (shouldProgressGeneration C) g1
            then call_produceNextGeneration C g1 else Some g1) as [g2|]; [|done].
  destruct (isRunning g2) eqn:Hr2.
  2:{ intros [= <-]. congruence. }
  intros [= <-] _. unfold next, call_stepFunction.
  destruct (stepFunction C _ _ _ _) as [[h ms] w].
  cbn [state model trace set_pending]. apply last_snoc.
Qed.

Lemma step_pending (g g' : GeneticAlgorithm) :
  step C g = Some g' ->
  pending g' = pending g \/ pending g' = pending g ++ [AnimationFrame].
Proof.
  intros Hs. destruct (isRunning g') eqn:Hr.
  - right. by apply step_running.
  - left. by apply step_stopped.
Qed.

(** The engine only ever has animation frame requests registered. *)
Lemma run_requests l : forall g g' : GeneticAlgorithm,
  Forall (fun r => r = AnimationFrame) (pending g) ->
  run C l g = Some g' ->
  Forall (fun r => r = AnimationFrame) (pending g').
Proof.
  induction l as [|a l IH]; intros g g' Hq; cbn [run].
  - by intros [= <-].
  - destruct (act C a g) as [g1|] eqn:Ha; [|done].
    apply IH. clear IH.
    destruct a; cbn [act] in Ha.
    + injection Ha as <-. cbn. apply Forall_app. split; [done|].
      by constructor.
    + by injection Ha as <-.
    + unfold fire in Ha. destruct (pending g) as [|r q] eqn:Hg.
      * injection Ha as <-. by rewrite Hg.
      * apply Forall_cons in Hq as [_ Hq].
        apply step_pending in Ha as [-> | ->]; cbn; [done|].
        apply Forall_app. split; [done|]. by constructor.
Qed.

End Controller.

(** ** Scheduling *)
Section Scheduling.
Context {Genes W : Type}.
Variable C : Callbacks Genes W.

Local Abbreviation GeneticAlgorithm := (GeneticAlgorithm Genes W).
Local Abbreviation State := (State Genes W).

(** C7, as the code has it.  The constructor takes the callbacks and
    [populationSize], and no frame delay.  In an engine run from its
    construction, a tick that completes with [isRunning] still true
    registers its successor with [requestAnimationFrame], for the host's
    next frame, and every request the engine has registered is of that
    kind. *)
Theorem next_tick_on_animation_frame (n : Z) (s : State)
    (g0 g g' : GeneticAlgorithm) (l : list Action) (r : HostRequest)
    (q : list HostRequest) :
  constructor C n s = Some g0 ->
  run C l g0 = Some g ->
  pending g = r :: q ->
  fire C g = Some g' ->
  isRunning g' = true ->
  pending g' = q ++ [AnimationFrame] /\
  Forall (fun r => r = AnimationFrame) (pending g').
Proof.
  intros Hc Hrun Hq Hfire Hr.
  assert (pending g' = q ++ [AnimationFrame]) as Hq'.
  { unfold fire in Hfire. rewrite Hq in Hfire.
    by apply step_running in Hfire. }
  split; [done|].
  assert (Forall (fun r => r = AnimationFrame) (pending g)) as Hall.
  { eapply run_requests; [|exact Hrun].
    destruct (constructor_spec C n s) as (created & h & w & _ & Hg).
    rewrite Hg in Hc. injection Hc as <-. constructor. }
  rewrite Hq', Forall_app. rewrite Hq in Hall.
  apply Forall_cons in Hall as [_ Hall]. split; [done|]. by constructor.
Qed.

Lemma run_single_pending l : forall g g' : GeneticAlgorithm,
  length (pending g) <= 1 ->
  play_when_idle C l g ->
  run C l g = Some g' ->
  length (pending g') <= 1.
Proof.
  induction l as [|a l IH]; intros g g' Hq Hd; cbn [run].
  - by intros [= <-].
  - destruct Hd as [Hplay Hd].
    destruct (act C a g) as [g1|] eqn:Ha; [|done].
    apply IH; [|done]. clear IH Hd.
    destruct a; cbn [act] in Ha.
    + injection Ha as <-. cbn. by rewrite Hplay.
    + by injection Ha as <-.
    + unfold fire in Ha. destruct (pending g) as [|r q] eqn:Hg.
      * injection Ha as <-. rewrite Hg. cbn. lia.
      * destruct q; [|cbn in Hq; lia].
        apply step_pending in Ha as [-> | ->]; cbn; lia.
Qed.

Local Ltac not_requested H :=
  repeat (apply elem_of_cons in H as [H|H]; [discriminate H|]);
  by apply elem_of_nil in H.

Lemma step_effects_stopped (g g' : GeneticAlgorithm) :
  step C g = Some g' ->
  isRunning g' = false ->
  RequestAnimationFrame ∉ step_effects C g.
Proof.
  unfold step, step_effects. cbv zeta.
  destruct (test (shouldTerminate C) g) eqn:Ht.
  { cbn. intros _ _ H. not_requested H. }
  destruct (isRunning g) eqn:Hr1; cbn [negb].
  2:{ intros _ _ H. cbn in H. not_requested H. }
  destruct (test (shouldProgressGeneration C) g) eqn:Hp.
  - destruct (call_produceNextGeneration C g) as [g2|]; [|done].
    destruct (isRunning g2) eqn:Hr2; intros [= <-] Hr' H.
    + unfold next in Hr'. cbn [set_pending isRunning] in Hr'.
      destruct (call_stepFunction_fields C g2) as (Hf & _). congruence.
    + cbn in H. not_requested H.
  - rewrite Hr1. intros [= <-] Hr'. unfold next in Hr'.
    cbn [set_pending isRunning] in Hr'.
    destruct (call_stepFunction_fields C g) as (Hf & _). congruence.
Qed.

Lemma step_effects_running (g g' : GeneticAlgorithm) :
  step C g = Some g' ->
  isRunning g' = true ->
  exists before,
    step_effects C g = before ++ [CallStepFunction; RequestAnimationFrame] /\
    RequestAnimationFrame ∉ before.
Proof.
  unfold step, step_effects. cbv zeta.
  destruct (test (shouldTerminate C) g) eqn:Ht.
  { cbn. intros [= <-]. cbn. congruence. }
  destruct (isRunning g) eqn:Hr1; cbn [negb].
  2:{ intros [= <-]. congruence. }
  destruct (test (shouldProgressGeneration C) g) eqn:Hp.
  - destruct (call_produceNextGeneration C g) as [g2|]; [|done].
    destruct (isRunning g2) eqn:Hr2; intros [= <-] Hr'; [|congruence].
    exists [CallShouldTerminate; CallShouldProgressGeneration;
            CallProduceNextGeneration].
    split; [done|]. intros H. not_requested H.
  - rewrite Hr1. intros _ _.
    exists [CallShouldTerminate; CallShouldProgressGeneration].
    split; [done|]. intros H. not_requested H.
Qed.

(** C8, as the code has it.  From construction on, under any sequence of
    [play()], [pause()] and tick firings in which [play()] is called only
    while no tick is registered, at most one [step] invocation is registered
    with the host at a time.  [play()] registers one tick whenever it is
    called, whatever is registered already.  A tick registers nothing, or
    one successor, and then as the last statement of its synchronous body,
    right after the call of [stepFunction]. *)
Theorem single_pending_tick (n : Z) (s : State) (g g' : GeneticAlgorithm)
    (l : list Action) :
  constructor C n s = Some g ->
  play_when_idle C l g ->
  run C l g = Some g' ->
  length (pending g') <= 1 /\
  (forall g1 : GeneticAlgorithm,
     pending (play g1) = pending g1 ++ [AnimationFrame] /\
     isRunning (play g1) = true) /\
  forall g1 g2 : GeneticAlgorithm,
    step C g1 = Some g2 ->
    (pending g2 = pending g1 /\
     RequestAnimationFrame ∉ step_effects C g1) \/
    (pending g2 = pending g1 ++ [AnimationFrame] /\
     last (trace (state g2)) = Some (EvStepFunction (model g2)) /\
     exists before,
       step_effects C g1
         = before ++ [CallStepFunction; RequestAnimationFrame] /\
       RequestAnimationFrame ∉ before).
Proof.
  intros Hc Hd Hrun. split; [|split].
  - revert Hd Hrun. apply run_single_pending.
    destruct (constructor_spec C n s) as (created & h & w & _ & Hg).
    rewrite Hg in Hc. injection Hc as <-. cbn. lia.
  - done.
  - intros g1 g2 Hs. destruct (isRunning g2) eqn:Hr.
    + right. split; [by apply (step_running C)|].
      split; [by apply (step_running_trace C g1)|].
      by apply (step_effects_running g1 g2).
    + left. split; [by apply (step_stopped C)|].
      by apply (step_effects_stopped g1 g2).
Qed.

(** C6.  The class has no [reset]: the call [geneticAlgorithm.reset()] that
    the reset buttons of the sample applications make throws, in every
    state of the engine, where [play()] and [pause()] run. *)
Theorem reset_is_not_a_method (g : GeneticAlgorithm) :
  call_method C "reset" g = Thrown /\
  call_method C "play" g = Returned (Some (play g)) /\
  call_method C "pause" g = Returned (Some (pause g)).
Proof. repeat apply conj; reflexivity. Qed.

End Scheduling.

(** * The scenario *)

Lemma scenario_constructed : Scenario.engine = Some Scenario.constructed.
Proof. reflexivity. Qed.

Lemma scenario_crossover_local : crossover_local Scenario.callbacks.
Proof.
  intros pa pb h w _. cbn [crossover Scenario.callbacks].
  assert (forall o, local_effect (option_list pa ++ option_list pb) h
                      (length h) (h ++ [o])) as Hnew.
  { intros o. unfold local_effect. rewrite length_app. cbn.
    repeat split; [lia|lia|by right|].
    intros l Hl _. by rewrite lookup_app_l. }
  unfold Scenario.crossover.
  destruct pa as [a|]; [destruct (h !! a)|]; apply Hnew.
Qed.

Lemma scenario_mutate_local : mutate_local Scenario.callbacks.
Proof.
  intros o h w Ho. cbn. unfold local_effect.
  repeat split; [done|done|left; by apply list_elem_of_singleton].
Qed.

(** One generation from the constructed engine: generation [1], and four
    offspring that are copies of the fittest organism of generation [0]. *)
Example scenario_first_generation :
  exists s',
    produceNextGeneration_default Scenario.callbacks 0
      (state Scenario.constructed) = Some (1, s') /\
    models s' !! 1 = Some (mkModel 4 1 [8; 9; 10; 11]) /\
    Forall (fun r => organisms s' !! r = Some (Scenario.organism 3))
           [8; 9; 10; 11] /\
    models s' !! 0 = Some (mkModel 4 0 [0; 1; 2; 3]).
Proof.
  eexists. split; [vm_compute; reflexivity|].
  repeat apply conj; try reflexivity. by repeat constructor.
Qed.

(** [play()] and then [pause()] before any tick fires: the registered tick
    finds the engine stopped, and the model is the constructed one. *)
Example scenario_play_pause :
  run Scenario.callbacks [Play; Pause; Tick] Scenario.constructed
    = Some Scenario.constructed.
Proof. vm_compute. reflexivity. Qed.

(** C1 at the scenario: construction with [populationSize = 4], and one
    generation from the constructed model. *)
Lemma population_length_invariant_witness :
  (exists g x0,
      constructor Scenario.callbacks 4 Scenario.empty = Some g /\
      models (state g) !! model g = Some x0 /\
      populationSize x0 = 4%Z /\
      Z.of_nat (length (population x0)) = populationSize x0) /\
  (exists m' s' x',
      produceNextGeneration_default Scenario.callbacks 0
        (state Scenario.constructed) = Some (m', s') /\
      models s' !! m' = Some x' /\
      populationSize x' = 4%Z /\
      Z.of_nat (length (population x')) = populationSize x').
Proof.
  apply (population_length_invariant Scenario.callbacks 4 Scenario.empty
           (state Scenario.constructed) 0 (mkModel 4 0 [0; 1; 2; 3]));
    [lia | reflexivity | reflexivity | simpl; lia].
Defined.

Lemma generation_advances_by_one_witness :
  (exists g x0,
      constructor Scenario.callbacks 4 Scenario.empty = Some g /\
      models (state g) !! model g = Some x0 /\
      generation x0 = 0%Z) /\
  (exists m' s' x',
      produceNextGeneration_default Scenario.callbacks 0
        (state Scenario.constructed) = Some (m', s') /\
      models s' !! m' = Some x' /\
      generation x' = (0 + 1)%Z).
Proof.
  apply (generation_advances_by_one Scenario.callbacks 4 Scenario.empty
           (state Scenario.constructed) 0 (mkModel 4 0 [0; 1; 2; 3]));
    [reflexivity | reflexivity | unfold two53; simpl; lia].
Defined.

(** C2, as stated, fails: on a model of generation [2^53] the default
    strategy returns a model of generation [2^53], not [2^53 + 1]: the sum
    is not a double and rounds back. *)
Lemma generation_stalls_at_two53 :
  models Demo.aged !! 0 = Some (mkModel 2 two53 [0; 1]) /\
  refs_valid (organisms Demo.aged) [0; 1] = true /\
  exists s' x',
    produceNextGeneration_default Scenario.callbacks 0 Demo.aged
      = Some (1, s') /\
    models s' !! 1 = Some x' /\
    generation x' = two53 /\
    generation x' <> (two53 + 1)%Z.
Proof.
  split; [reflexivity|]. split; [reflexivity|].
  eexists _, _. split; [vm_compute; reflexivity|].
  split; [reflexivity|]. split; [reflexivity|]. cbn. unfold two53. lia.
Qed.


(** C9 at the scenario. *)
Lemma default_strategy_no_aliasing_witness :
  exists m' s' x',
    produceNextGeneration_default Scenario.callbacks 0
      (state Scenario.constructed) = Some (m', s') /\
    models s' !! 0 = Some (mkModel 4 0 [0; 1; 2; 3]) /\
    (forall k, k < 1 -> models s' !! k = models (state Scenario.constructed) !! k) /\
    (forall l, l < 4 ->
               organisms s' !! l = organisms (state Scenario.constructed) !! l) /\
    models s' !! m' = Some x' /\
    m' <> 0 /\
    Forall (fun r => 4 <= r < length (organisms s')) (population x') /\
    (forall r, r ∈ population x' -> r ∉ [0; 1; 2; 3]).
Proof.
  apply (default_strategy_no_aliasing Scenario.callbacks
           (state Scenario.constructed) 0 (mkModel 4 0 [0; 1; 2; 3]));
    [exact scenario_crossover_local | exact scenario_mutate_local
    | reflexivity | reflexivity].
Defined.

(** C4 at the scenario whose termination predicate holds: the engine is
    started, and the first tick stops it. *)
Lemma termination_latch_witness :
  exists g',
    step Scenario.finished (play Scenario.constructed) = Some g' /\
    isRunning g' = false /\
    state g' = state (play Scenario.constructed) /\
    model g' = model (play Scenario.constructed) /\
    pending g' = pending (play Scenario.constructed) /\
    steps Scenario.finished 3 g' = Some g' /\
    exists g'',
      run Scenario.finished [Tick; Pause; Tick] g' = Some g'' /\
      isRunning g'' = false /\
      state g'' = state (play Scenario.constructed) /\
      model g'' = model (play Scenario.constructed).
Proof.
  apply (termination_latch Scenario.finished (play Scenario.constructed) 3
           [Tick; Pause; Tick]); [reflexivity | compute_done].
Defined.

(** C8, as stated, fails: two calls of [play()] before any tick fires leave
    two [step] invocations registered with the host, and the two chains
    they start both keep going. *)
Lemma play_twice_registers_two_ticks :
  constructor Scenario.callbacks 4 Scenario.empty = Some Scenario.constructed /\
  run Scenario.callbacks [Play; Play] Scenario.constructed
    = Some (Scenario.after [Play; Play]) /\
  pending (Scenario.after [Play; Play]) = [AnimationFrame; AnimationFrame] /\
  run Scenario.callbacks [Play; Play; Tick; Tick] Scenario.constructed
    = Some (Scenario.after [Play; Play; Tick; Tick]) /\
  pending (Scenario.after [Play; Play; Tick; Tick])
    = [AnimationFrame; AnimationFrame] /\
  ~ length (pending (Scenario.after [Play; Play])) <= 1.
Proof.
  repeat apply conj; try (vm_compute; reflexivity). vm_compute. lia.
Qed.

(** C8 at the scenario: start, one tick, pause, the registered tick fires
    and stops the chain, start again, one tick. *)
Lemma single_pending_tick_witness :
  length (pending (Scenario.after [Play; Tick; Pause; Tick; Play; Tick])) <= 1 /\
  (forall g1 : GeneticAlgorithm Z Z,
     pending (play g1) = pending g1 ++ [AnimationFrame] /\
     isRunning (play g1) = true) /\
  forall g1 g2 : GeneticAlgorithm Z Z,
    step Scenario.callbacks g1 = Some g2 ->
    (pending g2 = pending g1 /\
     RequestAnimationFrame ∉ step_effects Scenario.callbacks g1) \/
    (pending g2 = pending g1 ++ [AnimationFrame] /\
     last (trace (state g2)) = Some (EvStepFunction (model g2)) /\
     exists before,
       step_effects Scenario.callbacks g1
         = before ++ [CallStepFunction; RequestAnimationFrame] /\
       RequestAnimationFrame ∉ before).
Proof.
  apply (single_pending_tick Scenario.callbacks 4 Scenario.empty
           Scenario.constructed
           (Scenario.after [Play; Tick; Pause; Tick; Play; Tick])
           [Play; Tick; Pause; Tick; Play; Tick]);
    [vm_compute; reflexivity
    | vm_compute; repeat apply conj; try exact I; (reflexivity || discriminate)
    | vm_compute; reflexivity].
Defined.

(** C7, as stated, fails: the constructor takes no frame delay, and the tick
    that follows [play()] registers its successor as an animation frame
    request; no request with a delay is ever made. *)
Lemma tick_requests_no_delay :
  constructor Scenario.callbacks 4 Scenario.empty = Some Scenario.constructed /\
  run Scenario.callbacks [Play; Tick] Scenario.constructed
    = Some (Scenario.after [Play; Tick]) /\
  isRunning (Scenario.after [Play; Tick]) = true /\
  pending (Scenario.after [Play; Tick]) = [AnimationFrame] /\
  forall delay, Timeout delay ∉ pending (Scenario.after [Play; Tick]).
Proof.
  repeat apply conj; try (vm_compute; reflexivity).
  intros delay H. vm_compute in H.
  apply list_elem_of_singleton in H. discriminate.
Qed.

(** C7 at the scenario: the first tick after [play()]. *)
Lemma next_tick_on_animation_frame_witness :
  pending (Scenario.after [Play; Tick]) = [] ++ [AnimationFrame] /\
  Forall (fun r => r = AnimationFrame) (pending (Scenario.after [Play; Tick])).
Proof.
  apply (next_tick_on_animation_frame Scenario.callbacks 4 Scenario.empty
           Scenario.constructed (Scenario.after [Play])
           (Scenario.after [Play; Tick]) [Play] AnimationFrame []);
    vm_compute; reflexivity.
Defined.

(** * More about the engine *)
Section EngineFacts.
Context {Genes W : Type}.
Variable C : Callbacks Genes W.

Local Abbreviation GeneticAlgorithm := (GeneticAlgorithm Genes W).
Local Abbreviation State := (State Genes W).
Local Abbreviation Organism := (Organism Genes).

(** X1.  The constructor calls [createOrganism] once per organism and
    nothing else: the population of the new model lists the results in call
    order, each call runs on the organisms and the ambient state the call
    before it left and the engine's store holds what the last one left, the
    log grows by exactly those calls, the older model objects are untouched,
    the engine is not running and nothing is registered with the host. *)
Theorem constructor_creates_population (n : Z) (s : State) :
  exists g created,
    constructor C n s = Some g /\
    model g = length (models s) /\
    models (state g) = models s ++ [mkModel n 0 created] /\
    createOrganism_run C (Z.to_nat n) (organisms s) (env s)
      = (created, organisms (state g), env (state g)) /\
    length created = Z.to_nat n /\
    trace (state g) = trace s ++ map EvCreateOrganism created /\
    isRunning g = false /\
    pending g = [].
Proof.
  destruct (constructor_spec C n s) as (created & h & w & Hrun & ->).
  exists (mkGA (mkState h (models s ++ [mkModel n 0 created]) w
                        (trace s ++ map EvCreateOrganism created))
               (length (models s)) false []), created.
  cbn [state model models organisms env trace isRunning pending].
  repeat split; [exact Hrun|].
  pose proof (createOrganism_run_length C (Z.to_nat n) (organisms s) (env s)) as Hl.
  by rewrite Hrun in Hl.
Qed.

(** X2.  A [populationSize] that is zero or negative is not rejected: the
    constructor returns an engine with an empty population and never calls
    [createOrganism], so the store gains the model object and nothing else. *)
Theorem constructor_nonpositive_size (n : Z) (s : State) :
  (n <= 0)%Z ->
  constructor C n s =
    Some (mkGA (mkState (organisms s) (models s ++ [mkModel n 0 []]) (env s)
                        (trace s))
               (length (models s)) false []).
Proof.
  intros Hn. destruct (constructor_spec C n s) as (created & h & w & Hrun & ->).
  replace (Z.to_nat n) with 0 in Hrun by lia. cbn in Hrun.
  injection Hrun as <- <- <-. cbn. by rewrite app_nil_r.
Qed.

(** X3.  A model whose [populationSize] is zero or negative still advances:
    the default strategy returns a copy with the generation incremented
    ([generation + 1] where a double counts exactly, from [-2^53] up to
    [2^53]) and an empty population, whatever the old population was, and
    calls no callback. *)
Theorem default_strategy_nonpositive_size (s : State) (m : loc)
    (x : GeneticAlgorithmModel) :
  models s !! m = Some x ->
  refs_valid (organisms s) (population x) = true ->
  (populationSize x <= 0)%Z ->
  exists cloned acc,
    clone_refs (organisms s) (population x) [] [] = Some (cloned, acc) /\
    produceNextGeneration_default C m s =
      Some (length (models s),
            mkState (organisms s ++ acc)
              (models s ++ [mkModel (populationSize x) (increment (generation x)) []])
              (env s) (trace s)) /\
    ((- two53 <= generation x < two53)%Z ->
     increment (generation x) = (generation x + 1)%Z).
Proof.
  intros Hx Hv Hn.
  destruct (clone_refs_total (organisms s) _ Hv) as (cloned & acc & Hc & _ & _).
  exists cloned, acc. split; [done|]. split; [|apply increment_exact].
  rewrite (produceNextGeneration_default_spec C s m x cloned acc Hx Hc).
  replace (Z.to_nat (populationSize x)) with 0 by lia.
  cbn [crossover_run mutate_run map zip_with].
  by rewrite app_nil_r.
Qed.

Lemma array_sort_short {A} (c : A -> A -> Z) (l : list A) :
  length l < 2 -> array_sort c l = l.
Proof. destruct l as [|a [|b l]]; cbn; [done|done|lia]. Qed.

(** X4.  With fewer than two organisms in the population the strategy does
    not stop: [sortedPopulation[1]] is [undefined], and every call of
    [crossover] gets [undefined] as [parentB] (and as [parentA] too when the
    population is empty). *)
Theorem default_strategy_missing_parents (s : State) (m : loc)
    (x : GeneticAlgorithmModel) :
  models s !! m = Some x ->
  refs_valid (organisms s) (population x) = true ->
  length (population x) < 2 ->
  exists cloned acc children results s',
    clone_refs (organisms s) (population x) [] [] = Some (cloned, acc) /\
    length cloned = length (population x) /\
    produceNextGeneration_default C m s = Some (length (models s), s') /\
    length children = Z.to_nat (populationSize x) /\
    trace s' = trace s ++ map (EvCrossover (head cloned) None) children
                       ++ zip_with EvMutate children results.
Proof.
  intros Hx Hv Hlen.
  destruct (clone_refs_total (organisms s) _ Hv) as (cloned & acc & Hc & Hl & _).
  pose proof (produceNextGeneration_default_spec C s m x cloned acc Hx Hc) as Hspec.
  cbn zeta in Hspec. rewrite array_sort_short in Hspec by lia.
  assert (cloned !! 0 = head cloned) as E0 by (by destruct cloned).
  assert (cloned !! 1 = None) as E1.
  { apply lookup_ge_None. lia. }
  rewrite E0, E1 in Hspec.
  pose proof (crossover_run_length C (head cloned) None
                (Z.to_nat (populationSize x)) (organisms s ++ acc) (env s)) as Hn.
  destruct (crossover_run C _ _ _ _ _) as [[children h2] w2].
  destruct (mutate_run C children h2 w2) as [[results h3] w3].
  exists cloned, acc, children, results. eexists.
  split; [done|]. split; [done|]. split; [exact Hspec|]. by split.
Qed.

(** X7.  A tick that leaves the engine running was the tick of a running
    engine whose [shouldTerminate] was false.  It ran the reproduction
    strategy exactly when [shouldProgressGeneration] held, on the model of
    before, and then called [stepFunction] once, on the model the strategy
    returned: the hook sees the new generation. *)
Theorem running_tick (g g' : GeneticAlgorithm) :
  step C g = Some g' ->
  isRunning g' = true ->
  isRunning g = true /\
  test (shouldTerminate C) g = false /\
  exists s1,
    (if test (shouldProgressGeneration C) g
     then strategy C (model g)
            (mkState (organisms (state g)) (models (state g)) (env (state g))
                     (trace (state g) ++ [EvProduceNextGeneration (model g)]))
          = Some (model g', s1)
     else s1 = state g /\ model g' = model g) /\
    trace (state g') = trace s1 ++ [EvStepFunction (model g')] /\
    stepFunction C (model g') (organisms s1) (models s1) (env s1)
    = (organisms (state g'), models (state g'), env (state g')).
Proof.
  unfold step. destruct (test (shouldTerminate C) g) eqn:Ht.
  { cbn. intros [= <-]. done. }
  destruct (isRunning g) eqn:Hr; cbn [negb].
  2:{ intros [= <-]. congruence. }
  intros Hs Hr'. do 2 (split; [done|]).
  destruct (test (shouldProgressGeneration C) g) eqn:Hp.
  - unfold call_produceNextGeneration in Hs.
    destruct (strategy C _ _) as [[m1 s1]|]; [|done].
    cbn [isRunning] in Hs. rewrite Hr in Hs. injection Hs as <-.
    exists s1. clear Hr'. unfold next, call_stepFunction, set_pending.
    cbn [model state isRunning pending].
    destruct (stepFunction C m1 _ _ _) as [[h ms] w] eqn:E. cbn.
    by rewrite E.
  - rewrite Hr in Hs. injection Hs as <-.
    exists (state g). clear Hr'. unfold next, call_stepFunction, set_pending.
    destruct (stepFunction C (model g) _ _ _) as [[h ms] w] eqn:E. cbn.
    by rewrite E.
Qed.

(** X8.  The number of ticks registered with the host grows only by
    [play()]: after any actions it is at most the number before plus the
    number of [play()] calls. *)
Theorem pending_bounded_by_plays (l : list Action) (g g' : GeneticAlgorithm) :
  run C l g = Some g' ->
  length (pending g') <= length (pending g) + count_action Play l.
Proof.
  revert g. induction l as [|a l IH]; intros g; cbn [run].
  - intros [= <-]. lia.
  - destruct (act C a g) as [g1|] eqn:Ha; [|done].
    intros Hrun. apply IH in Hrun.
    unfold count_action in *. rewrite filter_cons.
    destruct a; cbn [act] in Ha.
    + injection Ha as <-. cbn in Hrun. rewrite length_app in Hrun.
      case_decide; [|done]. cbn in *. lia.
    + injection Ha as <-. case_decide; [done|]. by cbn in Hrun.
    + case_decide; [done|].
      unfold fire in Ha. destruct (pending g) as [|r q] eqn:Hq.
      * injection Ha as <-. by rewrite Hq in Hrun.
      * apply step_pending in Ha. cbn in *.
        destruct Ha as [E|E]; rewrite E in Hrun;
          [|rewrite length_app in Hrun]; cbn in *; lia.
Qed.

(** X9.  A chain of ticks does not end by itself: while the engine runs and
    [shouldTerminate] is false, a tick that fires registers exactly one
    successor and leaves the engine running. *)
Theorem running_tick_reschedules (g g' : GeneticAlgorithm) (r : HostRequest)
    (q : list HostRequest) :
  isRunning g = true ->
  test (shouldTerminate C) g = false ->
  pending g = r :: q ->
  fire C g = Some g' ->
  isRunning g' = true /\ pending g' = q ++ [AnimationFrame].
Proof.
  intros Hr Ht Hq Hfire. unfold fire in Hfire. rewrite Hq in Hfire.
  assert (isRunning g' = true) as Hr'.
  { unfold step in Hfire.
    change (test (shouldTerminate C) (set_pending q g))
      with (test (shouldTerminate C) g) in Hfire.
    rewrite Ht in Hfire. cbn [isRunning set_pending] in Hfire.
    rewrite Hr in Hfire. cbn [negb] in Hfire.
    destruct (if test (shouldProgressGeneration C) _ then _ else _)
      as [g2|] eqn:Hg2; [|done].
    assert (isRunning g2 = true) as Hr2.
    { destruct (test (shouldProgressGeneration C) _).
      - apply call_produceNextGeneration_fields in Hg2 as [-> _]. done.
      - by injection Hg2 as <-. }
    rewrite Hr2 in Hfire. injection Hfire as <-.
    unfold next. cbn [isRunning set_pending].
    by destruct (call_stepFunction_fields C g2) as (-> & _ & _). }
  split; [done|]. by apply step_running in Hfire.
Qed.

(** X10.  [play()] does not restart an engine whose [shouldTerminate] holds:
    the tick it registers stops the engine again and leaves the store and
    the model as they were. *)
Theorem play_after_termination (g : GeneticAlgorithm) :
  test (shouldTerminate C) g = true ->
  exists g',
    run C [Play; Tick] g = Some g' /\
    isRunning g' = false /\
    state g' = state g /\
    model g' = model g /\
    length (pending g') = length (pending g).
Proof.
  intros Ht. cbn [run act]. unfold fire.
  destruct (pending (play g)) as [|r q] eqn:Hq.
  { unfold play, next in Hq. cbn in Hq. by destruct (pending g). }
  unfold step.
  change (test (shouldTerminate C) (set_pending q (play g)))
    with (test (shouldTerminate C) g).
  rewrite Ht. cbn. eexists. split; [done|]. cbn.
  repeat split.
  unfold play, next in Hq. cbn in Hq.
  apply (f_equal length) in Hq. rewrite length_app in Hq. cbn in Hq. lia.
Qed.

Lemma createOrganism_run_valid n :
  createOrganism_valid C ->
  forall (h : list Organism) w created h' w',
    createOrganism_run C n h w = (created, h', w') ->
    length h <= length h' /\ Forall (fun r => r < length h') created.
Proof.
  intros Hv. induction n as [|n IH]; intros h w created h' w';
    cbn [createOrganism_run].
  - intros [= <- <- <-]. by split.
  - pose proof (Hv h w) as [Hlen Hr].
    destruct (createOrganism C h w) as [[o h1] w1]. cbn in Hlen, Hr.
    destruct (createOrganism_run C n h1 w1) as [[created' h2] w2] eqn:Hrun.
    intros [= <- <- <-].
    destruct (IH _ _ _ _ _ Hrun) as [Hlen' Hall].
    split; [lia|]. constructor; [lia|done].
Qed.

Lemma Forall_refs_valid (h : list Organism) refs :
  Forall (fun r => r < length h) refs -> refs_valid h refs = true.
Proof.
  unfold refs_valid. rewrite forallb_forall, Forall_forall.
  intros H r Hr. apply Nat.ltb_lt, H. by apply list_elem_of_In.
Qed.

Lemma constructor_model_ok (n : Z) (s : State) :
  createOrganism_valid C ->
  exists g x,
    constructor C n s = Some g /\
    model_ok n g x /\ generation x = 0%Z /\
    isRunning g = false /\ pending g = [].
Proof.
  intros Hv.
  destruct (constructor_spec C n s) as (created & h & w & Hrun & ->).
  pose proof (createOrganism_run_length C (Z.to_nat n) (organisms s) (env s)) as Hl.
  rewrite Hrun in Hl. cbn in Hl.
  destruct (createOrganism_run_valid _ Hv _ _ _ _ _ Hrun) as [_ Hall].
  eexists _, _. split; [done|]. unfold model_ok. cbn.
  by rewrite lookup_last_model.
Qed.

(** One generation of the default strategy keeps a model well formed. *)
Lemma produceNextGeneration_default_ok (s : State) m x :
  crossover_local C ->
  mutate_local C ->
  models s !! m = Some x ->
  Forall (fun r => r < length (organisms s)) (population x) ->
  exists s' x',
    produceNextGeneration_default C m s = Some (length (models s), s') /\
    models s' !! length (models s) = Some x' /\
    populationSize x' = populationSize x /\
    generation x' = increment (generation x) /\
    length (population x') = Z.to_nat (populationSize x) /\
    Forall (fun r => r < length (organisms s')) (population x').
Proof.
  intros Hcross Hmut Hx Hv.
  destruct (clone_refs_total (organisms s) _ (Forall_refs_valid _ _ Hv))
    as (cloned & acc & Hc & _ & Hcl).
  rewrite (produceNextGeneration_default_spec C s m x cloned acc Hx Hc).
  cbn zeta.
  set (sorted := array_sort (fitness_cmp C (organisms s ++ acc) (env s)) cloned).
  assert (Forall (fun r => length (organisms s) <= r < length (organisms s ++ acc))
                 sorted) as Hsorted.
  { unfold sorted. by rewrite array_sort_perm. }
  pose proof (crossover_run_length C (sorted !! 0) (sorted !! 1)
                (Z.to_nat (populationSize x)) (organisms s ++ acc) (env s)) as Hl1.
  destruct (crossover_run C _ _ _ _ _) as [[children h2] w2] eqn:Hrun1.
  pose proof (mutate_run_length C children h2 w2) as Hl2.
  destruct (mutate_run C children h2 w2) as [[results h3] w3] eqn:Hrun2.
  cbn in Hl1, Hl2.
  assert (length (organisms s) <= length (organisms s ++ acc)) as Hn1
    by (rewrite length_app; lia).
  destruct (crossover_run_local C (length (organisms s)) _ _ _ Hcross
              _ _ _ _ _ Hn1 (option_list_valid sorted _ 0 1 Hsorted) Hrun1)
    as (Hlen1 & _ & Hchildren).
  assert (length (organisms s) <= length h2) as Hn2 by lia.
  destruct (mutate_run_local C (length (organisms s)) _ Hmut
              _ _ _ _ _ Hn2 Hchildren Hrun2)
    as (_ & _ & Hresults).
  eexists _, _. split; [done|]. cbn [models organisms].
  split; [apply lookup_last_model|].
  cbn [populationSize generation population].
  repeat split; [lia|].
  eapply Forall_impl; [exact Hresults|]. cbn. lia.
Qed.

Lemma step_model_ok (n : Z) (g : GeneticAlgorithm) x :
  produceNextGeneration C = None ->
  crossover_local C ->
  mutate_local C ->
  stepFunction_quiet C ->
  model_ok n g x ->
  (0 <= generation x <= two53)%Z ->
  exists g' x',
    step C g = Some g' /\
    model_ok n g' x' /\
    (generation x <= generation x' <= generation x + 1)%Z /\
    (generation x' <= two53)%Z.
Proof.
  intros Hdef Hcross Hmut Hquiet (Hx & Hn & Hlen & Hv) Hgen.
  assert (forall g1 : GeneticAlgorithm, forall x1,
            model_ok n g1 x1 ->
            model_ok n (next (call_stepFunction C g1)) x1) as Hhook.
  { intros g1 x1 (Hx1 & Hn1 & Hlen1 & Hv1).
    unfold next, call_stepFunction, model_ok.
    pose proof (Hquiet (model g1) (organisms (state g1)) (models (state g1))
                  (env (state g1))) as [Hms Hh].
    destruct (stepFunction C _ _ _ _) as [[h ms] w]. cbn in *. subst ms.
    repeat split; [done..|].
    eapply Forall_impl; [exact Hv1|]. cbn. lia. }
  unfold step. destruct (test (shouldTerminate C) g).
  { cbn. exists (set_isRunning false g), x. split; [done|].
    split; [by repeat split|lia]. }
  destruct (isRunning g) eqn:Hr; cbn [negb].
  2:{ exists g, x. split; [done|]. split; [by repeat split|lia]. }
  destruct (test (shouldProgressGeneration C) g).
  - unfold call_produceNextGeneration, strategy. rewrite Hdef.
    destruct (produceNextGeneration_default_ok
                (mkState (organisms (state g)) (models (state g)) (env (state g))
                   (trace (state g) ++ [EvProduceNextGeneration (model g)]))
                (model g) x Hcross Hmut Hx Hv)
      as (s' & x' & -> & Hx' & Hn' & Hg' & Hlen' & Hv').
    cbn [isRunning]. rewrite Hr. eexists _, x'. split; [done|].
    pose proof (increment_bounds (generation x) Hgen) as Hinc.
    split; [|lia]. apply Hhook. unfold model_ok.
    cbn [state model models organisms].
    repeat split; [done|congruence|congruence|done].
  - rewrite Hr. eexists _, x. split; [done|]. split; [|lia].
    apply Hhook. by repeat split.
Qed.

Lemma run_model_ok (n : Z) (l : list Action) :
  produceNextGeneration C = None ->
  crossover_local C ->
  mutate_local C ->
  stepFunction_quiet C ->
  forall (g : GeneticAlgorithm) x,
    model_ok n g x ->
    (0 <= generation x <= two53)%Z ->
    exists g' x',
      run C l g = Some g' /\
      model_ok n g' x' /\
      (generation x <= generation x'
       <= generation x + Z.of_nat (count_action Tick l))%Z /\
      (generation x' <= two53)%Z.
Proof.
  intros Hdef Hcross Hmut Hquiet.
  induction l as [|a l IH]; intros g x Hok Hgen; cbn [run].
  - exists g, x. split; [done|]. split; [done|]. cbn. lia.
  - assert (exists g1 x1, act C a g = Some g1 /\ model_ok n g1 x1 /\
              (generation x <= generation x1
               <= generation x + Z.of_nat (count_action Tick [a]))%Z /\
              (generation x1 <= two53)%Z)
      as (g1 & x1 & -> & Hok1 & Hgen1 & Hb1).
    { destruct a; cbn [act].
      - exists (play g), x. split; [done|]. split; [exact Hok|].
        change (count_action Tick [Play]) with 0. lia.
      - exists (pause g), x. split; [done|]. split; [exact Hok|].
        change (count_action Tick [Pause]) with 0. lia.
      - change (count_action Tick [Tick]) with 1.
        unfold fire. destruct (pending g) as [|r q].
        + exists g, x. split; [done|]. split; [done|]. lia.
        + destruct (step_model_ok n (set_pending q g) x Hdef Hcross Hmut Hquiet
                      Hok Hgen)
            as (g1 & x1 & Hs & Hok1 & Hg1 & Hb1).
          exists g1, x1. split; [done|]. split; [done|]. lia. }
    destruct (IH g1 x1 Hok1 ltac:(lia)) as (g' & x' & Hrun & Hok' & Hgen' & Hb').
    exists g', x'. split; [done|]. split; [done|].
    unfold count_action in *. rewrite filter_cons.
    rewrite (filter_cons _ a []), filter_nil in Hgen1.
    destruct (decide (a = Tick)); cbn [length] in *; lia.
Qed.

(** X11.  An engine built with the default strategy, callbacks that keep to
    their arguments and a hook that leaves the model alone never gets
    stuck: every sequence of [play()], [pause()] and ticks runs to the end,
    and in the state it reaches the model is a live object with the
    constructor's [populationSize], exactly that many live organisms, and a
    generation between [0] and the number of ticks fired. *)
Theorem engine_run_invariant (n : Z) (s : State) (l : list Action) :
  produceNextGeneration C = None ->
  createOrganism_valid C ->
  crossover_local C ->
  mutate_local C ->
  stepFunction_quiet C ->
  (0 <= n)%Z ->
  exists g0 g x,
    constructor C n s = Some g0 /\
    run C l g0 = Some g /\
    models (state g) !! model g = Some x /\
    populationSize x = n /\
    Z.of_nat (length (population x)) = n /\
    refs_valid (organisms (state g)) (population x) = true /\
    (0 <= generation x <= Z.of_nat (count_action Tick l))%Z.
Proof.
  intros Hdef Hcreate Hcross Hmut Hquiet Hn.
  destruct (constructor_model_ok n s Hcreate) as (g0 & x0 & Hc & Hok0 & Hg0 & _).
  assert (0 <= generation x0 <= two53)%Z as Hb0
    by (rewrite Hg0; unfold two53; lia).
  destruct (run_model_ok n l Hdef Hcross Hmut Hquiet g0 x0 Hok0 Hb0)
    as (g & x & Hrun & (Hx & Hp & Hlen & Hv) & Hgen & _).
  exists g0, g, x. repeat (split; [done|]).
  split; [lia|]. split; [by apply Forall_refs_valid|lia].
Qed.

End EngineFacts.

(** ** Ties in the sort *)
Section SortTies.
Context {A : Type}.
Variable f : A -> Z.

Lemma sort_insert_filter (v : Z) x l :
  filter (fun y => f y = v) (sort_insert (fun a b => (f b - f a)%Z) x l)
  = filter (fun y => f y = v) (x :: l).
Proof.
  induction l as [|y l IH]; cbn [sort_insert]; [done|].
  destruct (Z.ltb_spec 0 (f y - f x)) as [Hlt|Hge]; [|done].
  rewrite filter_cons, IH, !filter_cons.
  repeat case_decide; try done; lia.
Qed.

Lemma array_sort_filter (v : Z) (l : list A) :
  filter (fun y => f y = v) (array_sort (fun a b => (f b - f a)%Z) l)
  = filter (fun y => f y = v) l.
Proof.
  induction l as [|x l IH]; cbn [array_sort foldr]; [done|].
  fold (array_sort (fun a b => (f b - f a)%Z) l).
  rewrite sort_insert_filter, !filter_cons, IH. done.
Qed.

(** X5.  The sort is the stable descending sort: its result holds the same
    organisms, in descending order of fitness, and organisms of equal
    fitness keep the order they had in the population. *)
Theorem array_sort_stable (l : list A) :
  array_sort (fun a b => (f b - f a)%Z) l ≡ₚ l /\
  descending f (array_sort (fun a b => (f b - f a)%Z) l) /\
  forall v : Z,
    filter (fun y => f y = v) (array_sort (fun a b => (f b - f a)%Z) l)
    = filter (fun y => f y = v) l.
Proof.
  split; [apply array_sort_perm|].
  split; [apply array_sort_descending|].
  intros v. apply array_sort_filter.
Qed.

(** X6.  [parentA], the element 0 of the sorted array, is at least as fit as
    every organism, and among the organisms as fit as itself it is the one
    that came first in the population. *)
Theorem parentA_is_first_fittest (l : list A) (a : A) :
  array_sort (fun a b => (f b - f a)%Z) l !! 0 = Some a ->
  Forall (fun x => (f x <= f a)%Z) l /\
  head (filter (fun y => f y = f a) l) = Some a.
Proof.
  intros Ha. split.
  - rewrite <- (array_sort_perm (fun a b => (f b - f a)%Z) l).
    apply descending_top; [apply array_sort_descending|done].
  - rewrite <- array_sort_filter.
    destruct (array_sort _ l) as [|a' l']; [done|].
    injection Ha as ->. rewrite filter_cons. by case_decide.
Qed.

End SortTies.

(** * The knapsack sample *)
Section KnapsackFacts.
Import Knapsack.
Variable R : Type.
Variable getRandomInt : Z -> Z -> R -> Z * R.

Lemma fold_weight_shift (l : list Item) (a : Z) :
  fold_left (fun acc item => (acc + weight item)%Z) l a
  = (a + getWeight l)%Z.
Proof.
  unfold getWeight. revert a. induction l as [|x l IH]; intros a; cbn.
  - lia.
  - rewrite (IH (a + weight x)%Z), (IH (0 + weight x)%Z). lia.
Qed.

Lemma getWeight_cons x l : getWeight (x :: l) = (weight x + getWeight l)%Z.
Proof. unfold getWeight at 1. cbn. by rewrite fold_weight_shift. Qed.

Lemma getWeight_snoc l x : getWeight (l ++ [x]) = (getWeight l + weight x)%Z.
Proof.
  unfold getWeight at 1. rewrite fold_left_app. cbn.
  rewrite fold_weight_shift. lia.
Qed.

Lemma getWeight_perm l l' : l ≡ₚ l' -> getWeight l = getWeight l'.
Proof.
  induction 1 as [|x l l' _ IH|x y l|l l' l'' _ IH1 _ IH2].
  - done.
  - by rewrite !getWeight_cons, IH.
  - rewrite !getWeight_cons. lia.
  - congruence.
Qed.

Lemma getWeight_bounds (lo hi : Z) l :
  Forall (fun item => (lo <= weight item <= hi)%Z) l ->
  (lo * Z.of_nat (length l) <= getWeight l <= hi * Z.of_nat (length l))%Z.
Proof.
  induction 1 as [|x l Hx _ IH]; [cbn; lia|].
  rewrite getWeight_cons. cbn [length]. lia.
Qed.

(** What a turn of the loop does when the index names an item. *)
Lemma fill_step fuel genes available r :
  fill R getRandomInt (S fuel) genes available r =
    if (getWeight genes <? WEIGHT_CAPACITY)%Z || (length available <=? 0)
    then
      match (if (0 <=? (getRandomInt 0 (Z.of_nat (length available) - 1) r).1)%Z
             then available !! Z.to_nat
                    (getRandomInt 0 (Z.of_nat (length available) - 1) r).1
             else None) with
      | Some item =>
          fill R getRandomInt fuel (genes ++ [item])
            (delete (Z.to_nat (getRandomInt 0 (Z.of_nat (length available) - 1) r).1)
                    available)
            (getRandomInt 0 (Z.of_nat (length available) - 1) r).2
      | None => Thrown
      end
    else Returned (genes, available, r).
Proof.
  cbn [fill]. by destruct (getRandomInt 0 (Z.of_nat (length available) - 1) r).
Qed.

Lemma fill_enough_fuel fuel : forall genes available r,
  length available < fuel ->
  fill R getRandomInt fuel genes available r <> OutOfFuel.
Proof.
  induction fuel as [|fuel IH]; intros genes available r Hfuel; [lia|].
  rewrite fill_step.
  destruct (_ || _); [|done].
  destruct (0 <=? _)%Z; [|done].
  destruct (available !! _) as [item|] eqn:Hitem; [|done].
  apply IH. rewrite length_delete by eauto.
  apply lookup_lt_Some in Hitem. lia.
Qed.

(** What the loop has done when it returns. *)
Lemma fill_returned fuel : forall genes available r genes' rest r',
  fill R getRandomInt fuel genes available r = Returned (genes', rest, r') ->
  exists picked,
    genes' = genes ++ picked /\
    picked ++ rest ≡ₚ available /\
    (WEIGHT_CAPACITY <= getWeight genes')%Z /\
    rest <> [] /\
    (picked <> [] -> (getWeight (removelast genes') < WEIGHT_CAPACITY)%Z).
Proof.
  induction fuel as [|fuel IH]; intros genes available r genes' rest r'; [done|].
  rewrite fill_step.
  destruct (Z.ltb_spec (getWeight genes) WEIGHT_CAPACITY) as [Hlt|Hge];
    destruct (Nat.leb_spec (length available) 0) as [Hempty|Hsome]; cbn [orb].
  4:{ intros [= <- <- <-]. exists []. rewrite app_nil_r.
      split; [done|]. split; [done|]. split; [done|].
      split; [|done]. intros ->. cbn in Hsome. lia. }
  all: destruct (0 <=? _)%Z; [|done].
  all: destruct (available !! _) as [item|] eqn:Hitem; [|done].
  all: intros Hfill; apply IH in Hfill as (picked & -> & Hperm & Hcap & Hrest & Hpop).
  all: pose proof (lookup_lt_Some _ _ _ Hitem) as Hidx; try lia.
  all: exists (item :: picked).
  all: rewrite <- (assoc_L (++)) in *; cbn [app] in *.
  all: repeat split; [by rewrite (delete_Permutation _ _ _ Hitem), <- Hperm
                     |done|done|].
  all: intros _; destruct picked as [|p picked];
    [by rewrite removelast_last|apply Hpop; done].
Qed.

(** X12.  The constructor of [KnapsackOrganism] always comes to an end: its
    loop takes one item per turn and throws once there is none left. *)
Theorem new_KnapsackOrganism_terminates (available : list Item) (r : R) :
  new_KnapsackOrganism R getRandomInt available r = Thrown \/
  exists organism r',
    new_KnapsackOrganism R getRandomInt available r = Returned (organism, r').
Proof.
  unfold new_KnapsackOrganism.
  pose proof (fill_enough_fuel (S (length available)) [] available r) as H.
  destruct (fill _ _ _ _ _ _) as [[[genes rest] r']| |].
  - right. by eexists _, _.
  - by left.
  - exfalso. apply H; [lia|done].
Qed.

(** X13.  A knapsack that the constructor returns weighs less than
    [WEIGHT_CAPACITY].  Its genes are items of [AVAILABLE_ITEMS], each taken
    at most once, in the order they were drawn; the item drawn next, which
    the constructor pops, would have reached the capacity; and at least one
    more item was left. *)
Theorem new_KnapsackOrganism_below_capacity (available : list Item) (r r' : R)
    (organism : Organism (list Item)) :
  new_KnapsackOrganism R getRandomInt available r = Returned (organism, r') ->
  (getWeight (genes organism) < WEIGHT_CAPACITY)%Z /\
  mutationChance organism = MUTATION_CHANCE /\
  exists popped rest,
    (genes organism ++ [popped]) ++ rest ≡ₚ available /\
    rest <> [] /\
    (WEIGHT_CAPACITY <= getWeight (genes organism) + weight popped)%Z.
Proof.
  unfold new_KnapsackOrganism.
  destruct (fill _ _ _ _ _ _) as [[[genes' rest] r1]| |] eqn:Hfill; [|done..].
  intros [= <- <-]. cbn [genes mutationChance].
  apply fill_returned in Hfill as (picked & -> & Hperm & Hcap & Hrest & Hpop).
  cbn [app] in *.
  destruct (exists_last (l := picked)) as (front & popped & ->).
  { intros ->. cbn in Hcap. unfold WEIGHT_CAPACITY in Hcap. lia. }
  rewrite removelast_last in *.
  split; [apply Hpop; by destruct front|]. split; [done|].
  exists popped, rest. split; [done|]. split; [done|].
  by rewrite getWeight_snoc in Hcap.
Qed.

Lemma fill_never_returns fuel : forall genes available r,
  Forall (fun item => (0 <= weight item)%Z) available ->
  (getWeight genes + getWeight available < WEIGHT_CAPACITY)%Z ->
  forall x, fill R getRandomInt fuel genes available r <> Returned x.
Proof.
  induction fuel as [|fuel IH]; intros genes available r Hpos Hsum x; [done|].
  rewrite fill_step.
  assert (0 <= getWeight available)%Z as Hnonneg.
  { clear -Hpos. induction Hpos as [|y l Hy _ IHl]; [done|].
    rewrite getWeight_cons. lia. }
  destruct (Z.ltb_spec (getWeight genes) WEIGHT_CAPACITY) as [Hlt|Hge]; [|lia].
  cbn [orb]. destruct (0 <=? _)%Z; [|done].
  destruct (available !! _) as [item|] eqn:Hitem; [|done].
  apply IH; [by apply Forall_delete|].
  rewrite getWeight_snoc.
  rewrite (getWeight_perm _ _ (delete_Permutation _ _ _ Hitem)) in Hsum.
  rewrite getWeight_cons in Hsum. lia.
Qed.

(** X14.  When the items cannot fill the knapsack (their weights, none
    negative, add up to less than [WEIGHT_CAPACITY]; no item at all is such
    a case), the constructor does not return a lighter knapsack: it runs
    out of items and throws, whatever the random source draws. *)
Theorem new_KnapsackOrganism_runs_out_of_items (available : list Item) (r : R) :
  Forall (fun item => (0 <= weight item)%Z) available ->
  (getWeight available < WEIGHT_CAPACITY)%Z ->
  new_KnapsackOrganism R getRandomInt available r = Thrown.
Proof.
  intros Hpos Hsum. unfold new_KnapsackOrganism.
  pose proof (fill_enough_fuel (S (length available)) [] available r) as Hfuel.
  pose proof (fill_never_returns (S (length available)) [] available r Hpos) as Hret.
  destruct (fill _ _ _ _ _ _) as [x| |]; [|done|].
  - exfalso. by apply (Hret Hsum x).
  - exfalso. apply Hfuel; [lia|done].
Qed.

Lemma fill_succeeds fuel :
  in_range R getRandomInt ->
  forall genes available r,
    length available < fuel ->
    Forall (fun item => (MIN_WEIGHT <= weight item)%Z) genes ->
    Forall (fun item => (MIN_WEIGHT <= weight item)%Z) available ->
    length genes + length available = NUM_ITEMS ->
    length genes <= 8 ->
    exists x, fill R getRandomInt fuel genes available r = Returned x.
Proof.
  intros Hrand. induction fuel as [|fuel IH];
    intros genes available r Hfuel Hgenes Havail Hcount Hlen; [lia|].
  rewrite fill_step. unfold NUM_ITEMS in Hcount.
  assert (0 < length available) as Hsome by lia.
  destruct (Z.ltb_spec (getWeight genes) WEIGHT_CAPACITY) as [Hlt|Hge];
    destruct (Nat.leb_spec (length available) 0) as [Hempty|_]; try lia;
    cbn [orb]; [|by eexists].
  pose proof (Hrand 0%Z (Z.of_nat (length available) - 1)%Z r) as Hidx.
  destruct (getRandomInt 0 (Z.of_nat (length available) - 1) r) as [idx r1].
  cbn [fst snd] in *. specialize (Hidx ltac:(lia)).
  destruct (Z.leb_spec 0 idx) as [_|]; [|lia].
  destruct (lookup_lt_is_Some_2 available (Z.to_nat idx)) as [item Hitem]; [lia|].
  rewrite Hitem.
  assert (MIN_WEIGHT <= weight item)%Z as Hw.
  { rewrite Forall_lookup in Havail. by apply (Havail _ _ Hitem). }
  assert (MIN_WEIGHT * Z.of_nat (length genes) <= getWeight genes)%Z as Hlow.
  { clear -Hgenes. induction Hgenes as [|y l Hy _ IHl]; [cbn; lia|].
    rewrite getWeight_cons. cbn [length]. lia. }
  unfold MIN_WEIGHT, WEIGHT_CAPACITY in *.
  apply IH.
  - rewrite length_delete by eauto. lia.
  - apply Forall_app. split; [done|]. by constructor.
  - by apply Forall_delete.
  - rewrite length_app, length_delete by eauto. unfold NUM_ITEMS.
    cbn [length]. lia.
  - rewrite length_app. cbn [length]. lia.
Qed.

(** X15.  With the fifteen items the file makes, all of weight 50 to 100,
    and a random source that keeps to its range, the constructor always
    returns: a knapsack of three to seven items. *)
Theorem new_KnapsackOrganism_succeeds (available : list Item) (r : R) :
  in_range R getRandomInt ->
  length available = NUM_ITEMS ->
  Forall item_in_range available ->
  exists organism r',
    new_KnapsackOrganism R getRandomInt available r = Returned (organism, r') /\
    3 <= length (genes organism) <= 7 /\
    (getWeight (genes organism) < WEIGHT_CAPACITY)%Z.
Proof.
  intros Hrand Hlen Hitems.
  assert (Forall (fun item => (MIN_WEIGHT <= weight item <= MAX_WEIGHT)%Z)
                 available) as Hw.
  { eapply Forall_impl; [exact Hitems|]. by intros item (H & _). }
  destruct (fill_succeeds (S (length available)) Hrand [] available r)
    as [[[genes' rest] r'] Hfill]; [lia|done| |by rewrite Hlen|cbn; lia|].
  { eapply Forall_impl; [exact Hw|]. cbn. lia. }
  unfold new_KnapsackOrganism. rewrite Hfill.
  eexists _, _. split; [done|]. cbn [genes].
  apply fill_returned in Hfill as (picked & -> & Hperm & Hcap & Hrest & Hpop).
  cbn [app] in *.
  destruct (exists_last (l := picked)) as (front & popped & ->).
  { intros ->. cbn in Hcap. unfold WEIGHT_CAPACITY in Hcap. lia. }
  rewrite removelast_last in *.
  assert ((getWeight front < WEIGHT_CAPACITY)%Z) as Hfront.
  { apply Hpop. by destruct front. }
  split; [|done].
  assert (Forall (fun item => (MIN_WEIGHT <= weight item <= MAX_WEIGHT)%Z)
                 (front ++ [popped])) as Hpicked.
  { rewrite <- Hperm in Hw. by apply Forall_app in Hw as [Hw _]. }
  pose proof (getWeight_bounds _ _ _ Hpicked) as Hb1.
  apply Forall_app in Hpicked as [Hfr _].
  pose proof (getWeight_bounds _ _ _ Hfr) as Hb2.
  rewrite length_app in Hb1. cbn in Hb1.
  unfold MIN_WEIGHT, MAX_WEIGHT, WEIGHT_CAPACITY in *. lia.
Qed.

Lemma getRandomItem_in_range r :
  in_range R getRandomInt -> item_in_range (getRandomItem R getRandomInt r).1.
Proof.
  intros Hrand. unfold getRandomItem.
  pose proof (Hrand 0%Z Square r ltac:(done)) as Hs.
  destruct (getRandomInt 0 Square r) as [s r1].
  pose proof (Hrand MIN_WEIGHT MAX_WEIGHT r1 ltac:(done)) as Hw.
  destruct (getRandomInt MIN_WEIGHT MAX_WEIGHT r1) as [w r2].
  pose proof (Hrand MIN_VALUE MAX_VALUE r2 ltac:(done)) as Hv.
  destruct (getRandomInt MIN_VALUE MAX_VALUE r2) as [v r3].
  destruct (getRandomInt 0 255 r3) as [cr r4].
  destruct (getRandomInt 0 255 r4) as [cg r5].
  destruct (getRandomInt 0 255 r5) as [cb r6].
  unfold item_in_range, Triangle. cbn in *. lia.
Qed.

Lemma push_random_items_in_range n :
  in_range R getRandomInt ->
  forall items r,
    Forall item_in_range items ->
    length (push_random_items R getRandomInt n items r).1 = length items + n /\
    Forall item_in_range (push_random_items R getRandomInt n items r).1.
Proof.
  intros Hrand. induction n as [|n IH]; intros items r Hitems;
    cbn [push_random_items].
  - split; [cbn; lia|done].
  - pose proof (getRandomItem_in_range r Hrand) as Hitem.
    destruct (getRandomItem R getRandomInt r) as [item r'].
    destruct (IH (items ++ [item]) r') as [Hlen Hall].
    { apply Forall_app. split; [done|]. by constructor. }
    split; [|done]. rewrite Hlen, length_app. cbn. lia.
Qed.

(** X16.  With a random source that keeps to its range, [AVAILABLE_ITEMS]
    holds [NUM_ITEMS] items, each with a weight of [MIN_WEIGHT] to
    [MAX_WEIGHT], a value of [MIN_VALUE] to [MAX_VALUE] and one of the three
    shapes. *)
Theorem AVAILABLE_ITEMS_in_range (r : R) :
  in_range R getRandomInt ->
  length (AVAILABLE_ITEMS R getRandomInt r).1 = NUM_ITEMS /\
  Forall item_in_range (AVAILABLE_ITEMS R getRandomInt r).1.
Proof.
  intros Hrand.
  by destruct (push_random_items_in_range NUM_ITEMS Hrand [] r) as [Hlen Hall];
    [constructor|].
Qed.

End KnapsackFacts.

(** * The colour scheme sample *)
Section ColorSchemeFacts.
Import ColorScheme.
Variable J : Runtime.

Local Abbreviation Color := (ColorRGB J).
Local Abbreviation Scheme := (Organism (list (ColorRGB J))).

Lemma push_random_colors_length n : forall (genes : list Color) r,
  length (push_random_colors J n genes r).1 = length genes + n.
Proof.
  induction n as [|n IH]; intros genes r; cbn [push_random_colors].
  - cbn. lia.
  - destruct (getRandomInt J 0 255 r) as [x r1].
    destruct (getRandomInt J 0 255 r1) as [y r2].
    destruct (getRandomInt J 0 255 r2) as [z r3].
    rewrite IH, length_app. cbn. lia.
Qed.

Lemma new_ColorSchemeOrganism_shape r :
  length (genes (new_ColorSchemeOrganism J r).1) = COLOR_COUNT_EACH /\
  mutationChance (new_ColorSchemeOrganism J r).1 = MUTATION_CHANCE.
Proof.
  unfold new_ColorSchemeOrganism.
  pose proof (push_random_colors_length COLOR_COUNT_EACH [] r) as Hl.
  by destruct (push_random_colors J COLOR_COUNT_EACH [] r) as [gs r'].
Qed.

Lemma inherit_Some (channel : Color -> num J) (pa pb : Scheme) i r x r' :
  inherit J channel pa pb i r = Some (x, r') ->
  (exists a, genes pa !! i = Some a /\ x = channel a) \/
  (exists b, genes pb !! i = Some b /\ x = channel b).
Proof.
  unfold inherit. destruct (random J r) as [u r1].
  destruct (ltb J _ u).
  - destruct (genes pa !! i) as [a|]; [|done]. intros [= <- <-]. left. eauto.
  - destruct (genes pb !! i) as [b|]; [|done]. intros [= <- <-]. right. eauto.
Qed.

Lemma inherit_is_Some (channel : Color -> num J) (pa pb : Scheme) i r :
  is_Some (genes pa !! i) -> is_Some (genes pb !! i) ->
  is_Some (inherit J channel pa pb i r).
Proof.
  intros [a Ha] [b Hb]. unfold inherit. destruct (random J r) as [u r1].
  destruct (ltb J _ u); [rewrite Ha|rewrite Hb]; by eexists.
Qed.

Lemma inherit_None (channel : Color -> num J) (pa pb : Scheme) i r :
  genes pa !! i = None -> genes pb !! i = None ->
  inherit J channel pa pb i r = None.
Proof.
  intros Ha Hb. unfold inherit. destruct (random J r) as [u r1].
  destruct (ltb J _ u); [by rewrite Ha|by rewrite Hb].
Qed.

(** What the loop of [crossover] has done when it returns. *)
Lemma crossover_genes_Some (pa pb : Scheme) n :
  forall i (off : list Color) r gs r',
    i + n <= length off ->
    crossover_genes J n i off pa pb r = Some (gs, r') ->
    length gs = length off /\
    (forall j, j < i \/ i + n <= j -> gs !! j = off !! j) /\
    (forall j c, i <= j < i + n -> gs !! j = Some c ->
       (exists a, genes pa !! j = Some a) \/ (exists b, genes pb !! j = Some b)) /\
    (forall j c a b, i <= j < i + n -> gs !! j = Some c ->
       genes pa !! j = Some a -> genes pb !! j = Some b -> mixes J a b c).
Proof.
  induction n as [|n IH]; intros i off r gs r' Hlen; cbn [crossover_genes].
  - intros [= <- <-]. repeat split; try done; intros; lia.
  - destruct (off !! i) as [c0|] eqn:Hc0; [|done].
    destruct (inherit J (red J) pa pb i r) as [[x r1]|] eqn:Hx; [|done].
    destruct (inherit J (green J) pa pb i r1) as [[y r2]|] eqn:Hy; [|done].
    destruct (inherit J (blue J) pa pb i r2) as [[z r3]|] eqn:Hz; [|done].
    intros Hrec. apply IH in Hrec as (Hl & Hout & Hsome & Hmix);
      [|rewrite length_insert; lia].
    rewrite length_insert in Hl.
    assert (gs !! i = Some (set_blue J z (set_green J y (set_red J x c0)))) as Hi.
    { rewrite Hout by lia. apply list_lookup_insert_eq. lia. }
    split; [done|]. split; [|split].
    + intros j Hj. rewrite Hout by lia. apply list_lookup_insert_ne. lia.
    + intros j c Hj Hc. destruct (decide (j = i)) as [->|Hne].
      * apply inherit_Some in Hx as [(a & Ha & _)|(b & Hb & _)]; eauto.
      * apply (Hsome j c); [lia|done].
    + intros j c a b Hj Hc Ha Hb. destruct (decide (j = i)) as [->|Hne].
      * rewrite Hi in Hc. injection Hc as <-.
        apply inherit_Some in Hx as [(a' & Ha' & ->)|(b' & Hb' & ->)];
          apply inherit_Some in Hy as [(a2 & Ha2 & ->)|(b2 & Hb2 & ->)];
          apply inherit_Some in Hz as [(a3 & Ha3 & ->)|(b3 & Hb3 & ->)];
          unfold mixes; cbn;
          repeat match goal with
                 | H1 : ?l !! ?k = Some ?u, H2 : ?l !! ?k = Some ?v |- _ =>
                     assert (u = v) by congruence; subst u; clear H2
                 end; tauto.
      * apply (Hmix j c a b); [lia|done..].
Qed.

Lemma crossover_genes_is_Some (pa pb : Scheme) n :
  forall i (off : list Color) r,
    i + n <= length off ->
    i + n <= length (genes pa) ->
    i + n <= length (genes pb) ->
    is_Some (crossover_genes J n i off pa pb r).
Proof.
  induction n as [|n IH]; intros i off r Hoff Ha Hb; cbn [crossover_genes].
  - by eexists.
  - destruct (lookup_lt_is_Some_2 off i) as [c0 ->]; [lia|].
    assert (is_Some (genes pa !! i)) as Hpa by (apply lookup_lt_is_Some_2; lia).
    assert (is_Some (genes pb !! i)) as Hpb by (apply lookup_lt_is_Some_2; lia).
    destruct (inherit_is_Some (red J) pa pb i r Hpa Hpb) as [[x r1] ->].
    destruct (inherit_is_Some (green J) pa pb i r1 Hpa Hpb) as [[y r2] ->].
    destruct (inherit_is_Some (blue J) pa pb i r2 Hpa Hpb) as [[z r3] ->].
    apply IH; [rewrite length_insert|..]; lia.
Qed.

Lemma crossover_genes_None (pa pb : Scheme) n :
  forall i (off : list Color) r j,
    i <= j < i + n ->
    genes pa !! j = None ->
    genes pb !! j = None ->
    crossover_genes J n i off pa pb r = None.
Proof.
  induction n as [|n IH]; intros i off r j Hj Ha Hb; cbn [crossover_genes];
    [lia|].
  destruct (off !! i) as [c0|]; [|done].
  destruct (decide (j = i)) as [->|Hne].
  { by rewrite inherit_None. }
  destruct (inherit J (red J) pa pb i r) as [[x r1]|]; [|done].
  destruct (inherit J (green J) pa pb i r1) as [[y r2]|]; [|done].
  destruct (inherit J (blue J) pa pb i r2) as [[z r3]|]; [|done].
  apply (IH _ _ _ j); [lia|done..].
Qed.

(** X17.  [crossover] of two parents with at least [COLOR_COUNT_EACH]
    colours returns a new organism of exactly [COLOR_COUNT_EACH] colours,
    with the file's [MUTATION_CHANCE]; each channel of its colour [i] is
    that channel of colour [i] of one of the parents.  Nothing of the random
    colours it was created with is left. *)
Theorem crossover_mixes_parents (parentA parentB : Scheme) (r : Rand J) :
  COLOR_COUNT_EACH <= length (genes parentA) ->
  COLOR_COUNT_EACH <= length (genes parentB) ->
  exists offspring r',
    crossover J parentA parentB r = Some (offspring, r') /\
    length (genes offspring) = COLOR_COUNT_EACH /\
    mutationChance offspring = MUTATION_CHANCE /\
    forall i c, genes offspring !! i = Some c ->
      exists a b,
        genes parentA !! i = Some a /\ genes parentB !! i = Some b /\
        mixes J a b c.
Proof.
  intros Ha Hb. unfold crossover.
  destruct (new_ColorSchemeOrganism_shape r) as [Hlen Hchance].
  destruct (new_ColorSchemeOrganism J r) as [off r1]. cbn [fst] in *.
  destruct (crossover_genes_is_Some parentA parentB (length (genes off)) 0
              (genes off) r1) as [[gs r2] Hgs]; [lia..|].
  rewrite Hgs. eexists _, _. split; [done|]. cbn [genes mutationChance].
  apply crossover_genes_Some in Hgs as (Hl & _ & _ & Hmix); [|lia].
  split; [lia|]. split; [done|].
  intros i c Hc. pose proof (lookup_lt_Some _ _ _ Hc) as Hi.
  destruct (lookup_lt_is_Some_2 (genes parentA) i) as [a Hpa]; [lia|].
  destruct (lookup_lt_is_Some_2 (genes parentB) i) as [b Hpb]; [lia|].
  exists a, b. split; [done|]. split; [done|].
  apply (Hmix i c a b); [lia|done..].
Qed.

(** X18.  [crossover] of an organism with itself returns a copy of its first
    [COLOR_COUNT_EACH] colours, whatever the random source draws. *)
Theorem crossover_same_parent (parent : Scheme) (r : Rand J) :
  COLOR_COUNT_EACH <= length (genes parent) ->
  exists r',
    crossover J parent parent r
    = Some (mkOrganism (take COLOR_COUNT_EACH (genes parent)) MUTATION_CHANCE, r').
Proof.
  intros Ha. unfold crossover.
  destruct (new_ColorSchemeOrganism_shape r) as [Hlen Hchance].
  destruct (new_ColorSchemeOrganism J r) as [off r1]. cbn [fst] in *.
  destruct (crossover_genes_is_Some parent parent (length (genes off)) 0
              (genes off) r1) as [[gs r2] Hgs]; [lia..|].
  rewrite Hgs. exists r2. rewrite Hchance. do 3 f_equal.
  apply crossover_genes_Some in Hgs as (Hl & _ & _ & Hmix); [|lia].
  apply list_eq. intros i.
  destruct (decide (i < COLOR_COUNT_EACH)) as [Hi|Hi].
  - rewrite lookup_take_lt by done.
    destruct (lookup_lt_is_Some_2 gs i) as [c Hc]; [lia|].
    destruct (lookup_lt_is_Some_2 (genes parent) i) as [a Hpa]; [lia|].
    rewrite Hc, Hpa. f_equal.
    destruct (Hmix i c a a) as (Hr & Hg & Hbl); [lia|done|done|done|].
    destruct c, a; cbn in *. f_equal; tauto.
  - rewrite lookup_take_ge by lia. apply lookup_ge_None. lia.
Qed.

(** X19.  [crossover] throws when both parents have fewer than
    [COLOR_COUNT_EACH] colours: whichever parent the random source chooses
    for the last colour has none there. *)
Theorem crossover_short_parents (parentA parentB : Scheme) (r : Rand J) :
  length (genes parentA) < COLOR_COUNT_EACH ->
  length (genes parentB) < COLOR_COUNT_EACH ->
  crossover J parentA parentB r = None.
Proof.
  intros Ha Hb. unfold crossover.
  destruct (new_ColorSchemeOrganism_shape r) as [Hlen Hchance].
  destruct (new_ColorSchemeOrganism J r) as [off r1]. cbn [fst] in *.
  rewrite (crossover_genes_None parentA parentB _ 0 _ _ 4); [done| |..].
  - rewrite Hlen. unfold COLOR_COUNT_EACH. lia.
  - apply lookup_ge_None. unfold COLOR_COUNT_EACH in *. lia.
  - apply lookup_ge_None. unfold COLOR_COUNT_EACH in *. lia.
Qed.

Lemma mutate_color_frame (c : Color) r :
  green J (mutate_color J c r).1 = green J c /\
  blue J (mutate_color J c r).1 = blue J c.
Proof.
  unfold mutate_color. destruct (random J r) as [x r1].
  destruct (ltb J x _); [|done].
  destruct (random J r1) as [y r2]. destruct (random J r2) as [z r3].
  by destruct (ltb J _ z).
Qed.

Lemma mutate_genes_frame n : forall i (gs : list Color) r,
  length (mutate_genes J n i gs r).1 = length gs /\
  forall j c, gs !! j = Some c ->
    exists c', (mutate_genes J n i gs r).1 !! j = Some c' /\
               green J c' = green J c /\ blue J c' = blue J c.
Proof.
  induction n as [|n IH]; intros i gs r; cbn [mutate_genes].
  - split; [done|]. intros j c Hc. by exists c.
  - destruct (gs !! i) as [ci|] eqn:Hci.
    2:{ split; [done|]. intros j c Hc. by exists c. }
    pose proof (mutate_color_frame ci r) as [Hg Hb].
    destruct (mutate_color J ci r) as [ci' r']. cbn [fst] in *.
    destruct (IH (S i) (<[i := ci']> gs) r') as [Hl Hframe].
    rewrite length_insert in Hl. split; [done|].
    intros j c Hc. destruct (decide (j = i)) as [->|Hne].
    + destruct (Hframe i ci') as (c' & Hc' & Hg' & Hb').
      { apply list_lookup_insert_eq. by eapply lookup_lt_Some. }
      exists c'. split; [done|]. rewrite Hci in Hc. injection Hc as <-.
      split; congruence.
    + apply Hframe. by rewrite list_lookup_insert_ne.
Qed.

(** X20.  [mutate] changes red channels only: the organism keeps its number
    of colours, its [mutationChance], and the green and blue channel of
    every colour.  What it draws and computes does not depend on the
    organism's own [mutationChance]; the chance it uses is the file's
    [MUTATION_CHANCE]. *)
Theorem mutate_changes_red_only (organism : Scheme) (r : Rand J) (chance : Q) :
  length (genes (mutate J organism r).1) = length (genes organism) /\
  mutationChance (mutate J organism r).1 = mutationChance organism /\
  (forall i c, genes organism !! i = Some c ->
     exists c', genes (mutate J organism r).1 !! i = Some c' /\
                green J c' = green J c /\ blue J c' = blue J c) /\
  genes (mutate J (mkOrganism (genes organism) chance) r).1
    = genes (mutate J organism r).1 /\
  (mutate J (mkOrganism (genes organism) chance) r).2 = (mutate J organism r).2.
Proof.
  unfold mutate. cbn [genes mutationChance].
  pose proof (mutate_genes_frame (length (genes organism)) 0 (genes organism) r)
    as [Hl Hframe].
  destruct (mutate_genes J _ 0 (genes organism) r) as [gs r'].
  by repeat split.
Qed.

End ColorSchemeFacts.

(** * The extra properties at concrete inputs *)

Lemma scenario_createOrganism_valid : createOrganism_valid Scenario.callbacks.
Proof. intros h w. cbn. rewrite length_app. cbn. lia. Qed.

Lemma scenario_stepFunction_quiet : stepFunction_quiet Scenario.callbacks.
Proof. intros m h ms w. by cbn. Qed.

Lemma least_in_range : Knapsack.in_range nat Demo.least.
Proof. intros lo hi r H. cbn. lia. Qed.

Lemma constructor_nonpositive_size_witness :
  constructor Scenario.callbacks (-1) Scenario.empty
  = Some (mkGA (mkState [] [mkModel (-1) 0 []] 0%Z []) 0 false []).
Proof.
  apply (constructor_nonpositive_size Scenario.callbacks (-1) Scenario.empty).
  lia.
Defined.

Lemma default_strategy_nonpositive_size_witness :
  exists cloned acc,
    clone_refs (organisms Demo.lonely) [0] [] [] = Some (cloned, acc) /\
    produceNextGeneration_default Scenario.callbacks 0 Demo.lonely =
      Some (2, mkState (organisms Demo.lonely ++ acc)
                 (models Demo.lonely ++ [mkModel 0 (increment 3) []]) 0%Z []) /\
    ((- two53 <= 3 < two53)%Z -> increment 3 = (3 + 1)%Z).
Proof.
  apply (default_strategy_nonpositive_size Scenario.callbacks Demo.lonely 0
           (mkModel 0 3 [0])); [reflexivity | reflexivity | simpl; lia].
Defined.

Lemma default_strategy_missing_parents_witness :
  exists cloned acc children results s',
    clone_refs (organisms Demo.lonely) [0] [] [] = Some (cloned, acc) /\
    length cloned = 1 /\
    produceNextGeneration_default Scenario.callbacks 1 Demo.lonely
      = Some (2, s') /\
    length children = 2 /\
    trace s' = [] ++ map (EvCrossover (head cloned) None) children
                  ++ zip_with EvMutate children results.
Proof.
  apply (default_strategy_missing_parents Scenario.callbacks Demo.lonely 1
           (mkModel 2 0 [0])); [reflexivity | reflexivity | simpl; lia].
Defined.

Lemma parentA_is_first_fittest_witness :
  Forall (fun x : Z * nat => (x.1 <= 3)%Z) Demo.tied /\
  head (filter (fun y : Z * nat => y.1 = 3%Z) Demo.tied) = Some (3%Z, 1).
Proof.
  apply (parentA_is_first_fittest (fun x : Z * nat => x.1) Demo.tied (3%Z, 1)).
  reflexivity.
Defined.

Lemma running_tick_witness :
  isRunning (set_pending [] (play Scenario.constructed)) = true /\
  test (shouldTerminate Scenario.callbacks)
       (set_pending [] (play Scenario.constructed)) = false /\
  exists s1,
    (if test (shouldProgressGeneration Scenario.callbacks)
          (set_pending [] (play Scenario.constructed))
     then strategy Scenario.callbacks 0
            (mkState (organisms (state Scenario.constructed))
                     (models (state Scenario.constructed)) 4%Z
                     (trace (state Scenario.constructed)
                        ++ [EvProduceNextGeneration 0]))
          = Some (model (Scenario.after [Play; Tick]), s1)
     else s1 = state Scenario.constructed /\
          model (Scenario.after [Play; Tick]) = 0) /\
    trace (state (Scenario.after [Play; Tick]))
      = trace s1 ++ [EvStepFunction (model (Scenario.after [Play; Tick]))] /\
    stepFunction Scenario.callbacks (model (Scenario.after [Play; Tick]))
      (organisms s1) (models s1) (env s1)
    = (organisms (state (Scenario.after [Play; Tick])),
       models (state (Scenario.after [Play; Tick])),
       env (state (Scenario.after [Play; Tick]))).
Proof.
  apply (running_tick Scenario.callbacks
           (set_pending [] (play Scenario.constructed))
           (Scenario.after [Play; Tick])); vm_compute; reflexivity.
Defined.

Lemma pending_bounded_by_plays_witness :
  length (pending (Scenario.after [Play; Play; Tick; Pause; Tick; Tick]))
  <= length (pending Scenario.constructed)
     + count_action Play [Play; Play; Tick; Pause; Tick; Tick].
Proof.
  apply (pending_bounded_by_plays Scenario.callbacks
           [Play; Play; Tick; Pause; Tick; Tick] Scenario.constructed
           (Scenario.after [Play; Play; Tick; Pause; Tick; Tick])).
  vm_compute; reflexivity.
Defined.

Lemma running_tick_reschedules_witness :
  isRunning (Scenario.after [Play; Play; Tick]) = true /\
  pending (Scenario.after [Play; Play; Tick])
    = [AnimationFrame] ++ [AnimationFrame].
Proof.
  apply (running_tick_reschedules Scenario.callbacks
           (Scenario.after [Play; Play]) (Scenario.after [Play; Play; Tick])
           AnimationFrame [AnimationFrame]); vm_compute; reflexivity.
Defined.

Lemma play_after_termination_witness :
  exists g',
    run Scenario.finished [Play; Tick] Scenario.constructed = Some g' /\
    isRunning g' = false /\
    state g' = state Scenario.constructed /\
    model g' = model Scenario.constructed /\
    length (pending g') = length (pending Scenario.constructed).
Proof.
  apply (play_after_termination Scenario.finished Scenario.constructed).
  reflexivity.
Defined.

Lemma engine_run_invariant_witness :
  exists g0 g x,
    constructor Scenario.callbacks 4 Scenario.empty = Some g0 /\
    run Scenario.callbacks [Play; Tick; Tick; Pause; Tick; Play; Tick] g0
      = Some g /\
    models (state g) !! model g = Some x /\
    populationSize x = 4%Z /\
    Z.of_nat (length (population x)) = 4%Z /\
    refs_valid (organisms (state g)) (population x) = true /\
    (0 <= generation x
     <= Z.of_nat (count_action Tick [Play; Tick; Tick; Pause; Tick; Play; Tick]))%Z.
Proof.
  apply (engine_run_invariant Scenario.callbacks 4 Scenario.empty
           [Play; Tick; Tick; Pause; Tick; Play; Tick]);
    [reflexivity | exact scenario_createOrganism_valid
    | exact scenario_crossover_local | exact scenario_mutate_local
    | exact scenario_stepFunction_quiet | lia].
Defined.

Lemma bricks_not_negative n :
  Forall (fun item => (0 <= Knapsack.weight item)%Z) (replicate n Demo.brick).
Proof. apply Forall_replicate. cbn. lia. Qed.

Lemma bricks_in_range n :
  Forall Knapsack.item_in_range (replicate n Demo.brick).
Proof.
  apply Forall_replicate. unfold Knapsack.item_in_range. cbn.
  unfold Knapsack.MIN_WEIGHT, Knapsack.MAX_WEIGHT, Knapsack.MIN_VALUE,
    Knapsack.MAX_VALUE, Knapsack.Triangle, Knapsack.Square. lia.
Qed.

Lemma new_KnapsackOrganism_below_capacity_witness :
  (Knapsack.getWeight (replicate 3 Demo.brick) < Knapsack.WEIGHT_CAPACITY)%Z /\
  (1 # 100)%Q = Knapsack.MUTATION_CHANCE /\
  exists popped rest,
    (replicate 3 Demo.brick ++ [popped]) ++ rest ≡ₚ replicate 6 Demo.brick /\
    rest <> [] /\
    (Knapsack.WEIGHT_CAPACITY
     <= Knapsack.getWeight (replicate 3 Demo.brick) + Knapsack.weight popped)%Z.
Proof.
  apply (new_KnapsackOrganism_below_capacity nat Demo.least
           (replicate 6 Demo.brick) 0 4
           (mkOrganism (replicate 3 Demo.brick) (1 # 100)%Q)).
  reflexivity.
Defined.

Lemma new_KnapsackOrganism_runs_out_of_items_witness :
  Knapsack.new_KnapsackOrganism nat Demo.least (replicate 3 Demo.brick) 0
  = Thrown.
Proof.
  apply (new_KnapsackOrganism_runs_out_of_items nat Demo.least
           (replicate 3 Demo.brick) 0);
    [exact (bricks_not_negative 3) | vm_compute; reflexivity].
Defined.

Lemma new_KnapsackOrganism_succeeds_witness :
  exists organism r',
    Knapsack.new_KnapsackOrganism nat Demo.least (replicate 15 Demo.brick) 0
      = Returned (organism, r') /\
    3 <= length (genes organism) <= 7 /\
    (Knapsack.getWeight (genes organism) < Knapsack.WEIGHT_CAPACITY)%Z.
Proof.
  apply (new_KnapsackOrganism_succeeds nat Demo.least
           (replicate 15 Demo.brick) 0);
    [exact least_in_range | reflexivity | exact (bricks_in_range 15)].
Defined.

Lemma AVAILABLE_ITEMS_in_range_witness :
  length (Knapsack.AVAILABLE_ITEMS nat Demo.least 0).1 = Knapsack.NUM_ITEMS /\
  Forall Knapsack.item_in_range (Knapsack.AVAILABLE_ITEMS nat Demo.least 0).1.
Proof.
  apply (AVAILABLE_ITEMS_in_range nat Demo.least 0). exact least_in_range.
Defined.

Lemma crossover_mixes_parents_witness :
  exists offspring r',
    ColorScheme.crossover Demo.runtime Demo.dark Demo.light 0
      = Some (offspring, r') /\
    length (genes offspring) = ColorScheme.COLOR_COUNT_EACH /\
    mutationChance offspring = ColorScheme.MUTATION_CHANCE /\
    forall i c, genes offspring !! i = Some c ->
      exists a b,
        genes Demo.dark !! i = Some a /\ genes Demo.light !! i = Some b /\
        ColorScheme.mixes Demo.runtime a b c.
Proof.
  apply (crossover_mixes_parents Demo.runtime Demo.dark Demo.light 0);
    simpl; unfold ColorScheme.COLOR_COUNT_EACH; lia.
Defined.

Lemma crossover_same_parent_witness :
  exists r',
    ColorScheme.crossover Demo.runtime Demo.dark Demo.dark 0
    = Some (mkOrganism (take ColorScheme.COLOR_COUNT_EACH (genes Demo.dark))
                       ColorScheme.MUTATION_CHANCE, r').
Proof.
  apply (crossover_same_parent Demo.runtime Demo.dark 0).
  simpl; unfold ColorScheme.COLOR_COUNT_EACH; lia.
Defined.

Lemma crossover_short_parents_witness :
  ColorScheme.crossover Demo.runtime (mkOrganism [Demo.grey 1] (1 # 10)%Q)
    (mkOrganism [] (1 # 10)%Q) 0 = None.
Proof.
  apply (crossover_short_parents Demo.runtime
           (mkOrganism [Demo.grey 1] (1 # 10)%Q) (mkOrganism [] (1 # 10)%Q) 0);
    simpl; unfold ColorScheme.COLOR_COUNT_EACH; lia.
Defined.
